(** * Aethelgard: Event Horizon -- the combat and control core

    A shallow embedding of the gesture classifier (js/handTracking.js), the
    player ship (js/ship/aurelian.js), the weapon system (js/ship/weapons.js)
    and the wave manager (combat/waveManager.js), with the properties of the
    design document stated and settled against them.

    Conventions.
    - A JavaScript number is an exact rational ([Q]); equality of numbers is
      [==].  The rounding of floating-point arithmetic is not modelled.
    - [performance.now()] is an argument [now] of the operation that reads it.
    - [Math.random()] is an argument [rolls : nat -> Q], the successive
      results delivered to the operation.
    - A callback registered by the game ([onGestureChange], [onWaveComplete],
      [onEnemyKilled]) is a flag saying whether a handler is set; calling it
      appends a notification to the list the operation returns.
    - A browser timer ([setInterval], [setTimeout], [requestAnimationFrame])
      is a pending handle in the state; the callback is an operation of its
      own, run when the browser fires it.
    - Meshes, materials, particles, sounds and DOM updates are left out. *)

From Stdlib Require Import QArith Qabs Qround Lqa ZArith Lia Bool.
From stdpp Require Import gmap list.

(** ** JavaScript numbers *)

Module JS.
Local Open Scope Q_scope.

(** [a < b] and [a <= b] as the tests of an [if]. *)
Definition ltb (a b : Q) : bool := negb (Qle_bool b a).
Definition leb (a b : Q) : bool := Qle_bool a b.

Definition Math_min (a b : Q) : Q := if leb a b then a else b.
Definition Math_max (a b : Q) : Q := if leb a b then b else a.

End JS.

(** ** Gesture classifier (js/handTracking.js) *)

Module HandTracker.
Import JS.
Local Open Scope Q_scope.

Inductive Gesture :=
| IDLE | THRUST | BRAKE | AIM | FIRE_PRIMARY | FIRE_SECONDARY
| BARREL_ROLL | BOOST | SHIELD.

#[global] Instance Gesture_eq_dec : EqDecision Gesture.
Proof. solve_decision. Defined.

Record Point := { x : Q; y : Q }.

(** What [analyzeHand] returns, restricted to the fields that
    [detectGesture] and [updateAimPosition] read. *)
Record HandData := {
  palmCenter : Point;
  isPinching : bool;
  isFist : bool;
  isOpenPalm : bool;
  isPointing : bool;
  indexTip : Point
}.

Record HandTracker := {
  leftHand : option HandData;
  rightHand : option HandData;
  currentGesture : Gesture;
  previousGesture : Gesture;
  smoothingFactor : Q;
  aimPosition : Point;
  smoothAimPosition : Point;
  onGestureChange : bool
}.

(** [onGestureChange(gesture, previous)] *)
Inductive Notification := GestureChange (gesture previous : Gesture).

Definition constructor : HandTracker := {|
  leftHand := None;
  rightHand := None;
  currentGesture := IDLE;
  previousGesture := IDLE;
  smoothingFactor := 0.5;
  aimPosition := {| x := 0.5; y := 0.5 |};
  smoothAimPosition := {| x := 0.5; y := 0.5 |};
  onGestureChange := false
|}.

Definition setHands (l r : option HandData) (t : HandTracker) : HandTracker :=
  {| leftHand := l; rightHand := r;
     currentGesture := currentGesture t;
     previousGesture := previousGesture t;
     smoothingFactor := smoothingFactor t;
     aimPosition := aimPosition t;
     smoothAimPosition := smoothAimPosition t;
     onGestureChange := onGestureChange t |}.

Definition setOnGestureChange (t : HandTracker) : HandTracker :=
  {| leftHand := leftHand t; rightHand := rightHand t;
     currentGesture := currentGesture t;
     previousGesture := previousGesture t;
     smoothingFactor := smoothingFactor t;
     aimPosition := aimPosition t;
     smoothAimPosition := smoothAimPosition t;
     onGestureChange := true |}.

Definition setGestures (current previous : Gesture) (t : HandTracker)
  : HandTracker :=
  {| leftHand := leftHand t; rightHand := rightHand t;
     currentGesture := current;
     previousGesture := previous;
     smoothingFactor := smoothingFactor t;
     aimPosition := aimPosition t;
     smoothAimPosition := smoothAimPosition t;
     onGestureChange := onGestureChange t |}.

Definition setAim (aim smooth : Point) (t : HandTracker) : HandTracker :=
  {| leftHand := leftHand t; rightHand := rightHand t;
     currentGesture := currentGesture t;
     previousGesture := previousGesture t;
     smoothingFactor := smoothingFactor t;
     aimPosition := aim;
     smoothAimPosition := smooth;
     onGestureChange := onGestureChange t |}.

(** The three blocks of [detectGesture]; [Some g] is
    [this.currentGesture = g; return;]. *)
Definition twoHandGesture (l r : option HandData) : option Gesture :=
  match l, r with
  | Some lh, Some rh =>
      let handDistance := Qabs (x (palmCenter lh) - x (palmCenter rh)) in
      if ltb 0.4 handDistance && isOpenPalm lh && isOpenPalm rh
      then Some BARREL_ROLL
      else if ltb handDistance 0.3 && isOpenPalm lh && isOpenPalm rh
      then Some BOOST
      else if ltb handDistance 0.2 && isFist lh && isFist rh
      then Some SHIELD
      else None
  | _, _ => None
  end.

Definition rightHandGesture (r : option HandData) : option Gesture :=
  match r with
  | Some rh =>
      if isPinching rh then Some FIRE_PRIMARY
      else if isFist rh then Some BRAKE
      else if isOpenPalm rh then Some THRUST
      else if isPointing rh then Some AIM
      else None
  | None => None
  end.

Definition leftHandGesture (l : option HandData) : option Gesture :=
  match l with
  | Some lh => if isPinching lh then Some FIRE_SECONDARY else None
  | None => None
  end.

Definition detectGesture (t : HandTracker)
  : HandTracker * list Notification :=
  let previous := currentGesture t in
  match twoHandGesture (leftHand t) (rightHand t) with
  | Some g => (setGestures g previous t, [])
  | None =>
  match rightHandGesture (rightHand t) with
  | Some g => (setGestures g previous t, [])
  | None =>
  match leftHandGesture (leftHand t) with
  | Some g => (setGestures g previous t, [])
  | None =>
      (setGestures IDLE previous t,
       if bool_decide (IDLE <> previous) && onGestureChange t
       then [GestureChange IDLE previous] else [])
  end end end.

Definition clamp01 (v : Q) : Q := Math_max 0 (Math_min 1 v).

(** The raw aim of the frame: written from the right hand when there is
    one, left as it was otherwise. *)
Definition rawAim (t : HandTracker) : Point :=
  match rightHand t with
  | Some rh =>
      let targetX := 1 - x (palmCenter rh) in
      let targetY := y (palmCenter rh) in
      if isPointing rh
      then {| x := 1 - x (indexTip rh); y := y (indexTip rh) |}
      else {| x := targetX; y := targetY |}
  | None => aimPosition t
  end.

Definition smoothToward (smooth aim factor : Q) : Q :=
  clamp01 (smooth + (aim - smooth) * factor).

Definition updateAimPosition (t : HandTracker) : HandTracker :=
  let aim := rawAim t in
  let s := smoothAimPosition t in
  let f := smoothingFactor t in
  setAim aim
    {| x := smoothToward (x s) (x aim) f;
       y := smoothToward (y s) (y aim) f |} t.

(** [processResults], from the analysed hands of the camera frame on. *)
Definition processResults (l r : option HandData) (t : HandTracker)
  : HandTracker * list Notification :=
  let '(t1, notes) := detectGesture (setHands l r t) in
  (updateAimPosition t1, notes).

Definition frame (l r : option HandData) (t : HandTracker) : HandTracker :=
  fst (processResults l r t).

Fixpoint frames (l r : option HandData) (n : nat) (t : HandTracker)
  : HandTracker :=
  match n with
  | O => t
  | S k => frame l r (frames l r k t)
  end.


(** A right hand held open, nothing else in view. *)
Definition openPalm : HandData := {|
  palmCenter := {| x := 0.5; y := 0.5 |};
  isPinching := false;
  isFist := false;
  isOpenPalm := true;
  isPointing := false;
  indexTip := {| x := 0.5; y := 0.3 |}
|}.


End HandTracker.

(** ** Player ship (js/ship/aurelian.js) *)

Module Aurelian.
Import JS HandTracker.
Local Open Scope Q_scope.

(** The resources and flags of the ship.  Its pose (position, velocity,
    quaternion) is left out: [thrust], [brake] and the velocity half of
    [boost] write nothing else, and the operations of other modules that read
    the pose take it as an argument.

    [rollStart] is [startTime] of the roll animation while its
    [requestAnimationFrame] chain runs.  Activation [k] of the shield owns the
    [setInterval] handle [k] (in [drainIntervals] until cleared) and the
    [setTimeout] handle [k] (in [shieldTimeouts] until fired). *)
Record Aurelian := {
  hull : Q;
  maxHull : Q;
  shield : Q;
  maxShield : Q;
  energy : Q;
  maxEnergy : Q;
  energyRegen : Q;
  isThrusting : bool;
  isBraking : bool;
  isBoosting : bool;
  isInvulnerable : bool;
  shieldActive : bool;
  rollStart : option Q;
  drainIntervals : gset nat;
  shieldTimeouts : gset nat;
  nextTimer : nat
}.

Definition constructor : Aurelian := {|
  hull := 100; maxHull := 100;
  shield := 100; maxShield := 100;
  energy := 100; maxEnergy := 100;
  energyRegen := 10;
  isThrusting := false; isBraking := false; isBoosting := false;
  isInvulnerable := false; shieldActive := false;
  rollStart := None;
  drainIntervals := ∅; shieldTimeouts := ∅; nextTimer := 0
|}.

Definition set_hull (v : Q) (s : Aurelian) : Aurelian :=
  {| hull := v; maxHull := maxHull s; shield := shield s;
     maxShield := maxShield s; energy := energy s; maxEnergy := maxEnergy s;
     energyRegen := energyRegen s; isThrusting := isThrusting s;
     isBraking := isBraking s; isBoosting := isBoosting s;
     isInvulnerable := isInvulnerable s; shieldActive := shieldActive s;
     rollStart := rollStart s; drainIntervals := drainIntervals s;
     shieldTimeouts := shieldTimeouts s; nextTimer := nextTimer s |}.

Definition set_shield (v : Q) (s : Aurelian) : Aurelian :=
  {| hull := hull s; maxHull := maxHull s; shield := v;
     maxShield := maxShield s; energy := energy s; maxEnergy := maxEnergy s;
     energyRegen := energyRegen s; isThrusting := isThrusting s;
     isBraking := isBraking s; isBoosting := isBoosting s;
     isInvulnerable := isInvulnerable s; shieldActive := shieldActive s;
     rollStart := rollStart s; drainIntervals := drainIntervals s;
     shieldTimeouts := shieldTimeouts s; nextTimer := nextTimer s |}.

Definition set_energy (v : Q) (s : Aurelian) : Aurelian :=
  {| hull := hull s; maxHull := maxHull s; shield := shield s;
     maxShield := maxShield s; energy := v; maxEnergy := maxEnergy s;
     energyRegen := energyRegen s; isThrusting := isThrusting s;
     isBraking := isBraking s; isBoosting := isBoosting s;
     isInvulnerable := isInvulnerable s; shieldActive := shieldActive s;
     rollStart := rollStart s; drainIntervals := drainIntervals s;
     shieldTimeouts := shieldTimeouts s; nextTimer := nextTimer s |}.

Definition set_controls (t b o : bool) (s : Aurelian) : Aurelian :=
  {| hull := hull s; maxHull := maxHull s; shield := shield s;
     maxShield := maxShield s; energy := energy s; maxEnergy := maxEnergy s;
     energyRegen := energyRegen s; isThrusting := t; isBraking := b;
     isBoosting := o; isInvulnerable := isInvulnerable s;
     shieldActive := shieldActive s; rollStart := rollStart s;
     drainIntervals := drainIntervals s; shieldTimeouts := shieldTimeouts s;
     nextTimer := nextTimer s |}.

Definition set_isInvulnerable (v : bool) (s : Aurelian) : Aurelian :=
  {| hull := hull s; maxHull := maxHull s; shield := shield s;
     maxShield := maxShield s; energy := energy s; maxEnergy := maxEnergy s;
     energyRegen := energyRegen s; isThrusting := isThrusting s;
     isBraking := isBraking s; isBoosting := isBoosting s;
     isInvulnerable := v; shieldActive := shieldActive s;
     rollStart := rollStart s; drainIntervals := drainIntervals s;
     shieldTimeouts := shieldTimeouts s; nextTimer := nextTimer s |}.

Definition set_rollStart (v : option Q) (s : Aurelian) : Aurelian :=
  {| hull := hull s; maxHull := maxHull s; shield := shield s;
     maxShield := maxShield s; energy := energy s; maxEnergy := maxEnergy s;
     energyRegen := energyRegen s; isThrusting := isThrusting s;
     isBraking := isBraking s; isBoosting := isBoosting s;
     isInvulnerable := isInvulnerable s; shieldActive := shieldActive s;
     rollStart := v; drainIntervals := drainIntervals s;
     shieldTimeouts := shieldTimeouts s; nextTimer := nextTimer s |}.

Definition set_shieldActive (v : bool) (s : Aurelian) : Aurelian :=
  {| hull := hull s; maxHull := maxHull s; shield := shield s;
     maxShield := maxShield s; energy := energy s; maxEnergy := maxEnergy s;
     energyRegen := energyRegen s; isThrusting := isThrusting s;
     isBraking := isBraking s; isBoosting := isBoosting s;
     isInvulnerable := isInvulnerable s; shieldActive := v;
     rollStart := rollStart s; drainIntervals := drainIntervals s;
     shieldTimeouts := shieldTimeouts s; nextTimer := nextTimer s |}.

Definition set_timers (d t : gset nat) (n : nat) (s : Aurelian) : Aurelian :=
  {| hull := hull s; maxHull := maxHull s; shield := shield s;
     maxShield := maxShield s; energy := energy s; maxEnergy := maxEnergy s;
     energyRegen := energyRegen s; isThrusting := isThrusting s;
     isBraking := isBraking s; isBoosting := isBoosting s;
     isInvulnerable := isInvulnerable s; shieldActive := shieldActive s;
     rollStart := rollStart s; drainIntervals := d; shieldTimeouts := t;
     nextTimer := n |}.

(** [boost(dt)], the energy half. *)
Definition boost (dt : Q) (s : Aurelian) : Aurelian :=
  set_energy (energy s - 30 * dt) s.

(** The callback [animate] of [barrelRoll], run at time [now]. *)
Definition animate (now : Q) (s : Aurelian) : Aurelian :=
  match rollStart s with
  | None => s
  | Some startTime =>
      let duration := 500 in
      let elapsed := now - startTime in
      let progress := Math_min (elapsed / duration) 1 in
      if ltb progress 1
      then s
      else set_rollStart None (set_isInvulnerable false s)
  end.

Definition barrelRoll (now : Q) (s : Aurelian) : Aurelian :=
  if isInvulnerable s then s
  else if ltb (energy s) 20 then s
  else
    let s1 := set_isInvulnerable true s in
    let s2 := set_energy (energy s1 - 20) s1 in
    animate now (set_rollStart (Some now) s2).

Definition deactivateShield (s : Aurelian) : Aurelian :=
  set_shieldActive false s.

Definition clearInterval (k : nat) (s : Aurelian) : Aurelian :=
  set_timers (drainIntervals s ∖ {[k]}) (shieldTimeouts s) (nextTimer s) s.

Definition activateShield (s : Aurelian) : Aurelian :=
  if shieldActive s then s
  else if ltb (energy s) 10 then s
  else
    let k := nextTimer s in
    set_timers ({[k]} ∪ drainIntervals s) ({[k]} ∪ shieldTimeouts s) (S k)
      (set_shieldActive true s).

(** The [setInterval] callback of activation [k] (every 100 ms). *)
Definition drainTick (k : nat) (s : Aurelian) : Aurelian :=
  if bool_decide (k ∈ drainIntervals s)
  then
    let s1 := set_energy (energy s - 5) s in
    if leb (energy s1) 0
    then clearInterval k (deactivateShield s1)
    else s1
  else s.

(** The [setTimeout] callback of activation [k] (after 3000 ms). *)
Definition shieldTimeout (k : nat) (s : Aurelian) : Aurelian :=
  if bool_decide (k ∈ shieldTimeouts s)
  then
    let s1 :=
      set_timers (drainIntervals s) (shieldTimeouts s ∖ {[k]}) (nextTimer s) s
    in clearInterval k (deactivateShield s1)
  else s.

Definition processGesture (now : Q) (gesture : Gesture) (dt : Q)
  (s : Aurelian) : Aurelian :=
  let s0 := set_controls false false false s in
  match gesture with
  | THRUST => set_controls true false false s0
  | BRAKE => set_controls false true false s0
  | BOOST =>
      if ltb 20 (energy s0)
      then boost dt (set_controls false false true s0)
      else s0
  | BARREL_ROLL => barrelRoll now s0
  | SHIELD => activateShield s0
  | _ => s0
  end.

(** [update(deltaTime, gesture, aimPosition)]: gesture, then regeneration of
    energy and shield. *)
Definition update (now deltaTime : Q) (gesture : Gesture) (s : Aurelian)
  : Aurelian :=
  let dt := deltaTime * 0.001 in
  let s1 := processGesture now gesture dt s in
  let s2 :=
    set_energy (Math_min (maxEnergy s1) (energy s1 + energyRegen s1 * dt)) s1 in
  if ltb (shield s2) (maxShield s2)
  then set_shield (Math_min (maxShield s2) (shield s2 + 5 * dt)) s2
  else s2.

(** [takeDamage(amount, hitPoint)].  The result is [None] for the bare
    [return] of the invulnerable case and [Some (hull <= 0)] otherwise. *)
Definition takeDamage (amount : Q) (s : Aurelian) : Aurelian * option bool :=
  if isInvulnerable s then (s, None)
  else
    let '(s1, amount1) :=
      if ltb 0 (shield s)
      then
        let shieldDamage := Math_min (shield s) amount in
        (set_shield (shield s - shieldDamage) s, amount - shieldDamage)
      else (s, amount) in
    let s2 :=
      if ltb 0 amount1 then set_hull (hull s1 - amount1) s1 else s1 in
    (s2, Some (leb (hull s2) 0)).

(** Energy within its cap; energy within both bounds, with a regeneration
    rate that adds. *)
Definition capped (s : Aurelian) : Prop := energy s <= maxEnergy s.

Definition funded (s : Aurelian) : Prop :=
  0 <= energy s /\ energy s <= maxEnergy s /\ 0 <= energyRegen s.

End Aurelian.

(** ** Vectors (the part of THREE.Vector3 the combat code uses) *)

Module THREE.
Import JS.
Local Open Scope Q_scope.

Record Vector3 := { vx : Q; vy : Q; vz : Q }.

Definition add (a b : Vector3) : Vector3 :=
  {| vx := vx a + vx b; vy := vy a + vy b; vz := vz a + vz b |}.

Definition sub (a b : Vector3) : Vector3 :=
  {| vx := vx a - vx b; vy := vy a - vy b; vz := vz a - vz b |}.

Definition multiplyScalar (a : Vector3) (k : Q) : Vector3 :=
  {| vx := vx a * k; vy := vy a * k; vz := vz a * k |}.

Definition distanceToSquared (a b : Vector3) : Q :=
  let d := sub a b in vx d * vx d + vy d * vy d + vz d * vz d.

(** [a.distanceTo(b) < r].  The distance is the square root of
    [distanceToSquared a b], so the test is decided on the squares. *)
Definition distanceTo_lt (a b : Vector3) (r : Q) : bool :=
  ltb 0 r && ltb (distanceToSquared a b) (r * r).

Definition origin : Vector3 := {| vx := 0; vy := 0; vz := 0 |}.
Definition ahead : Vector3 := {| vx := 0; vy := 0; vz := -1 |}.

End THREE.

(** ** Enemies (js/combat/enemyAI.js) and the objects shared between modules *)

Module Enemy.
Import JS.
Local Open Scope Q_scope.

Inductive EnemyType := VANGUARD | HUNTER | COWARD.

#[global] Instance EnemyType_eq_dec : EqDecision EnemyType.
Proof. solve_decision. Defined.

(** The combat state of an enemy.  Its AI state, cooldown and motion are left
    out: [update], [canAttack] and [attack] do not write [health]. *)
Record Enemy := {
  type : EnemyType;
  health : Q;
  maxHealth : Q;
  hitRadius : Q
}.

(** [new Enemy(scene, type, position)]: [initStats] and [hitRadius = 30]. *)
Definition create (ty : EnemyType) : Enemy :=
  let h := match ty with VANGUARD => 80 | HUNTER => 60 | COWARD => 40 end in
  {| type := ty; health := h; maxHealth := h; hitRadius := 30 |}.

Definition takeDamage (amount : Q) (e : Enemy) : Enemy * bool :=
  let e1 := {| type := type e; health := health e - amount;
               maxHealth := maxHealth e; hitRadius := hitRadius e |} in
  (e1, leb (health e1) 0).

(** The JavaScript objects that several modules hold references to.
    Enemy [k] is [objects !! k]; its mesh, created once by [createMesh] and
    never reset to null, has the handle [k] too: [poses k] is
    [mesh.position] and [k ∈ scene] says the mesh is in the scene graph.
    An enemy dropped from the wave manager's roster stays in [objects]: a
    reference to it may survive elsewhere.

    The placement of a spawned enemy and the movement of [Enemy.update]
    write [poses]; they are not modelled, so a frame starts from the poses it
    is given. *)
Record World := {
  objects : gmap nat Enemy;
  poses : nat -> THREE.Vector3;
  scene : gset nat;
  nextEnemy : nat
}.

Definition set_objects (o : gmap nat Enemy) (w : World) : World :=
  {| objects := o; poses := poses w; scene := scene w;
     nextEnemy := nextEnemy w |}.

Definition set_pose (k : nat) (p : THREE.Vector3) (w : World) : World :=
  {| objects := objects w;
     poses := fun j => if decide (j = k) then p else poses w j;
     scene := scene w; nextEnemy := nextEnemy w |}.

Definition set_scene (s : gset nat) (w : World) : World :=
  {| objects := objects w; poses := poses w; scene := s;
     nextEnemy := nextEnemy w |}.

(** [e.takeDamage(amount)] on the enemy object [k]. *)
Definition damage (k : nat) (amount : Q) (w : World) : World :=
  set_objects (alter (fun e => fst (takeDamage amount e)) k (objects w)) w.

(** An element of the array [WaveManager.getEnemies] returns:
    [{ mesh: e.mesh, hitRadius: e.hitRadius, takeDamage: (a) => e.takeDamage(a) }].
    [enemy] is the [e] the closure captured. *)
Record Target := {
  mesh : option nat;
  targetRadius : Q;
  enemy : nat
}.

End Enemy.

(** ** Weapons (js/ship/weapons.js) *)

Module Weapons.
Import JS THREE Enemy.
Local Open Scope Q_scope.

Inductive WeaponName := railgun | laser | harpoon.

#[global] Instance WeaponName_eq_dec : EqDecision WeaponName.
Proof. solve_decision. Defined.

(** The constant entries of the table [this.weapons]. *)
Definition damage (n : WeaponName) : Q :=
  match n with railgun => 25 | laser => 5 | harpoon => 10 end.

Definition cooldown (n : WeaponName) : Q :=
  match n with railgun => 200 | laser => 0 | harpoon => 3000 end.

Definition energyCost (n : WeaponName) : Q :=
  match n with railgun => 5 | laser => 15 | harpoon => 30 end.

Definition railgun_projectileSpeed : Q := 2000.
Definition harpoon_projectileSpeed : Q := 800.

(** [userData] and position of a railgun slug in [this.projectiles]. *)
Record Projectile := {
  p_position : Vector3;
  p_velocity : Vector3;
  p_damage : Q;
  p_lifetime : Q;
  p_created : Q
}.

(** [userData] and position of an entry of [this.harpoons]. *)
Record Harpoon := {
  position : Vector3;
  velocity : Vector3;
  h_damage : Q;
  lifetime : Q;
  created : Q;
  attached : bool;
  attachedTo : option Target;
  originPosition : Vector3
}.

(** [lastFired n] is [this.weapons[n].lastFired]: a number for the railgun
    and the harpoon, undefined for the laser until [firePrimary] writes it.
    [laserActive] is [this.weapons.laser.active]; [activeBeam] says whether
    [this.activeBeam] is set. *)
Record Weapons := {
  projectiles : list Projectile;
  harpoons : list Harpoon;
  lastFired : WeaponName -> option Q;
  laserActive : bool;
  currentWeapon : WeaponName;
  activeBeam : bool
}.

Definition constructor : Weapons := {|
  projectiles := [];
  harpoons := [];
  lastFired := fun n => match n with laser => None | _ => Some 0 end;
  laserActive := false;
  currentWeapon := railgun;
  activeBeam := false
|}.

Definition set_projectiles (ps : list Projectile) (w : Weapons) : Weapons :=
  {| projectiles := ps; harpoons := harpoons w; lastFired := lastFired w;
     laserActive := laserActive w; currentWeapon := currentWeapon w;
     activeBeam := activeBeam w |}.

Definition set_harpoons (hs : list Harpoon) (w : Weapons) : Weapons :=
  {| projectiles := projectiles w; harpoons := hs; lastFired := lastFired w;
     laserActive := laserActive w; currentWeapon := currentWeapon w;
     activeBeam := activeBeam w |}.

Definition set_lastFired (n : WeaponName) (now : Q) (w : Weapons) : Weapons :=
  {| projectiles := projectiles w; harpoons := harpoons w;
     lastFired := fun m => if decide (m = n) then Some now else lastFired w m;
     laserActive := laserActive w; currentWeapon := currentWeapon w;
     activeBeam := activeBeam w |}.

Definition set_laser (active beam : bool) (w : Weapons) : Weapons :=
  {| projectiles := projectiles w; harpoons := harpoons w;
     lastFired := lastFired w; laserActive := active;
     currentWeapon := currentWeapon w; activeBeam := beam |}.

Definition set_currentWeapon (n : WeaponName) (w : Weapons) : Weapons :=
  {| projectiles := projectiles w; harpoons := harpoons w;
     lastFired := lastFired w; laserActive := laserActive w;
     currentWeapon := n; activeBeam := activeBeam w |}.

(** [fireRailgun()]; [shipPosition] is [this.ship.position] and [forward]
    is [this.ship.getForward()]. *)
Definition fireRailgun (now : Q) (shipPosition forward : Vector3)
  (w : Weapons) : Weapons :=
  let p := {|
    p_position := add shipPosition (multiplyScalar forward 50);
    p_velocity := multiplyScalar forward railgun_projectileSpeed;
    p_damage := damage railgun;
    p_lifetime := 3000;
    p_created := now |} in
  set_projectiles (projectiles w ++ [p]) w.

Definition fireHarpoon (now : Q) (shipPosition forward : Vector3)
  (w : Weapons) : Weapons :=
  let h := {|
    position := add shipPosition (multiplyScalar forward 50);
    velocity := multiplyScalar forward harpoon_projectileSpeed;
    h_damage := damage harpoon;
    lifetime := 5000;
    created := now;
    attached := false;
    attachedTo := None;
    originPosition := shipPosition |} in
  set_harpoons (harpoons w ++ [h]) w.

(** [now - weapon.lastFired < weapon.cooldown]; with [lastFired] undefined
    the difference is NaN and the comparison is false. *)
Definition coolingDown (now : Q) (n : WeaponName) (w : Weapons) : bool :=
  match lastFired w n with
  | Some t => ltb (now - t) (cooldown n)
  | None => false
  end.

Definition firePrimary (now : Q) (shipPosition forward : Vector3)
  (ship : Aurelian.Aurelian) (w : Weapons)
  : bool * Aurelian.Aurelian * Weapons :=
  let weapon := currentWeapon w in
  if coolingDown now weapon w then (false, ship, w)
  else if ltb (Aurelian.energy ship) (energyCost weapon) then (false, ship, w)
  else
    let w1 :=
      match weapon with
      | railgun => fireRailgun now shipPosition forward w
      | harpoon => fireHarpoon now shipPosition forward w
      | laser => w
      end in
    (true,
     Aurelian.set_energy (Aurelian.energy ship - energyCost weapon) ship,
     set_lastFired weapon now w1).

(** [toggleLaser(active)], with [createBeam] and [destroyBeam] reduced to
    the presence of [this.activeBeam]. *)
Definition toggleLaser (active : bool) (ship : Aurelian.Aurelian)
  (w : Weapons) : Weapons :=
  if active && negb (laserActive w)
  then
    if ltb (Aurelian.energy ship) 5 then w
    else set_laser true true w
  else if negb active && laserActive w
  then set_laser false false w
  else w.

Definition selectWeapon (n : WeaponName) (ship : Aurelian.Aurelian)
  (w : Weapons) : Weapons :=
  let w1 :=
    if decide (currentWeapon w = laser) then toggleLaser false ship w else w in
  set_currentWeapon n w1.

(** [updateBeam(dt, enemies)] up to the early return on exhausted energy.
    The raycast that follows writes enemy health and beam visuals only and is
    not modelled. *)
Definition updateBeam (dt : Q) (ship : Aurelian.Aurelian) (w : Weapons)
  : Aurelian.Aurelian * Weapons :=
  if negb (activeBeam w) || negb (laserActive w) then (ship, w)
  else
    let ship1 :=
      Aurelian.set_energy (Aurelian.energy ship - energyCost laser * dt) ship in
    if leb (Aurelian.energy ship1) 0
    then (ship1, toggleLaser false ship1 w)
    else (ship1, w).

(** [enemy.mesh && p.distanceTo(enemy.mesh.position) < enemy.hitRadius] *)
Definition collides (p : Vector3) (world : World) (t : Target) : bool :=
  match mesh t with
  | Some m => distanceTo_lt p (poses world m) (targetRadius t)
  | None => false
  end.

(** The body of the loop of [updateProjectiles] for one slug: [None] when it
    is spliced out. *)
Definition updateProjectile (dt now : Q) (enemies : list Target)
  (p : Projectile) (world : World) : option Projectile * World :=
  let p1 := {|
    p_position := add (p_position p) (multiplyScalar (p_velocity p) dt);
    p_velocity := p_velocity p; p_damage := p_damage p;
    p_lifetime := p_lifetime p; p_created := p_created p |} in
  if ltb (p_lifetime p1) (now - p_created p1) then (None, world)
  else
    match List.find (collides (p_position p1) world) enemies with
    | Some t => (None, Enemy.damage (enemy t) (p_damage p1) world)
    | None => (Some p1, world)
    end.

(** The loops run from the last index down to 0 and splice in place: the
    tail of the list is updated before its head. *)
Fixpoint updateProjectiles (dt now : Q) (enemies : list Target)
  (ps : list Projectile) (world : World) : list Projectile * World :=
  match ps with
  | [] => ([], world)
  | p :: rest =>
      let '(rest1, world1) := updateProjectiles dt now enemies rest world in
      match updateProjectile dt now enemies p world1 with
      | (Some p1, world2) => (p1 :: rest1, world2)
      | (None, world2) => (rest1, world2)
      end
  end.

Section Harpoons.

(** [Vector3.normalize], which takes a square root. *)
Variable normalize : Vector3 -> Vector3.

Definition set_position (p : Vector3) (h : Harpoon) : Harpoon :=
  {| position := p; velocity := velocity h; h_damage := h_damage h;
     lifetime := lifetime h; created := created h; attached := attached h;
     attachedTo := attachedTo h; originPosition := originPosition h |}.

Definition attach (t : Target) (h : Harpoon) : Harpoon :=
  {| position := position h; velocity := velocity h; h_damage := h_damage h;
     lifetime := lifetime h; created := created h; attached := true;
     attachedTo := Some t; originPosition := originPosition h |}.

(** The body of the loop of [updateHarpoons] for one harpoon. *)
Definition updateHarpoon (dt now : Q) (enemies : list Target)
  (shipPosition : Vector3) (h : Harpoon) (world : World)
  : option Harpoon * World :=
  if ltb (lifetime h) (now - created h) then (None, world)
  else if negb (attached h) then
    let h1 := set_position (add (position h) (multiplyScalar (velocity h) dt)) h in
    match List.find (collides (position h1) world) enemies with
    | Some t => (Some (attach t h1), Enemy.damage (enemy t) (h_damage h1) world)
    | None => (Some h1, world)
    end
  else
    match attachedTo h with
    | Some t =>
        match mesh t with
        | Some m =>
            let h1 := set_position (poses world m) h in
            let pullDirection := normalize (sub shipPosition (poses world m)) in
            (Some h1,
             set_pose m
               (add (poses world m) (multiplyScalar pullDirection (100 * dt)))
               world)
        | None => (Some h, world)
        end
    | None => (Some h, world)
    end.

Fixpoint updateHarpoons (dt now : Q) (enemies : list Target)
  (shipPosition : Vector3) (hs : list Harpoon) (world : World)
  : list Harpoon * World :=
  match hs with
  | [] => ([], world)
  | h :: rest =>
      let '(rest1, world1) :=
        updateHarpoons dt now enemies shipPosition rest world in
      match updateHarpoon dt now enemies shipPosition h world1 with
      | (Some h1, world2) => (h1 :: rest1, world2)
      | (None, world2) => (rest1, world2)
      end
  end.

(** [update(deltaTime, enemies)] *)
Definition update (now deltaTime : Q) (enemies : list Target)
  (shipPosition : Vector3) (ship : Aurelian.Aurelian) (w : Weapons)
  (world : World) : Aurelian.Aurelian * Weapons * World :=
  let dt := deltaTime * 0.001 in
  let '(ps, world1) := updateProjectiles dt now enemies (projectiles w) world in
  let w1 := set_projectiles ps w in
  let '(ship1, w2) := updateBeam dt ship w1 in
  let '(hs, world2) :=
    updateHarpoons dt now enemies shipPosition (harpoons w2) world1 in
  (ship1, set_harpoons hs w2, world2).

End Harpoons.

End Weapons.

(** ** Wave manager (combat/waveManager.js) *)

Module WaveManager.
Import JS Enemy.
Local Open Scope Q_scope.

Record WaveConfig := {
  cfg_wave : Z;
  cfg_enemies : list EnemyType;
  cfg_spawnDelay : Q;
  cfg_bossWave : bool
}.

(** [enemiesToSpawn] is undefined until the first [startWave].  The
    projectiles fired by enemies are left out. *)
Record WaveManager := {
  currentWave : Z;
  enemiesRemaining : Z;
  activeEnemies : list nat;
  enemiesToSpawn : option (list EnemyType);
  timeSinceLastSpawn : Q;
  spawnDelay : Q;
  waveConfigs : list WaveConfig;
  onWaveComplete : bool;
  onEnemyKilled : bool;
  totalKills : Z
}.

(** [onEnemyKilled(enemy)] and [onWaveComplete(currentWave)] *)
Inductive Notification :=
| EnemyKilled (k : nat)
| WaveComplete (wave : Z).

(** The type drawn by one iteration of [generateNormalWaveEnemies]. *)
Definition normalType (wave : Z) (roll : Q) : EnemyType :=
  if (wave <? 3)%Z then
    if ltb roll 0.7 then COWARD else HUNTER
  else if (wave <? 7)%Z then
    if ltb roll 0.3 then COWARD
    else if ltb roll 0.7 then HUNTER
    else VANGUARD
  else
    if ltb roll 0.2 then COWARD
    else if ltb roll 0.5 then HUNTER
    else VANGUARD.

(** [n] iterations of the loop, reading the rolls from [cur] on. *)
Fixpoint normalLoop (wave : Z) (rolls : nat -> Q) (cur n : nat)
  : list EnemyType :=
  match n with
  | O => []
  | S k => normalType wave (rolls cur) :: normalLoop wave rolls (S cur) k
  end.

(** [generateNormalWaveEnemies(wave, count)], with the cursor into the rolls
    after the call. *)
Definition generateNormalWaveEnemies (rolls : nat -> Q) (cur : nat)
  (wave count : Z) : list EnemyType * nat :=
  (normalLoop wave rolls cur (Z.to_nat count), (cur + Z.to_nat count)%nat).

(** [[enemies[i], enemies[j]] = [enemies[j], enemies[i]]].  [Math.random()]
    is below 1, so [j <= i] and both indices are in range. *)
Definition swap (i j : nat) (l : list EnemyType) : list EnemyType :=
  match l !! i, l !! j with
  | Some a, Some b => <[i := b]> (<[j := a]> l)
  | _, _ => l
  end.

(** The shuffle loop, from index [i] down to 1. *)
Fixpoint shuffleFrom (rolls : nat -> Q) (cur i : nat) (l : list EnemyType)
  : list EnemyType * nat :=
  match i with
  | O => (l, cur)
  | S k =>
      let j := Z.to_nat (Qfloor (rolls cur * inject_Z (Z.of_nat i + 1))) in
      shuffleFrom rolls (S cur) k (swap i j l)
  end.

Definition generateBossWaveEnemies (rolls : nat -> Q) (cur : nat)
  (wave count : Z) : list EnemyType * nat :=
  let vanguardCount := Qfloor (inject_Z count * 0.5) in
  let hunterCount := Qfloor (inject_Z count * 0.3) in
  let cowardCount := (count - vanguardCount - hunterCount)%Z in
  let enemies :=
    replicate (Z.to_nat vanguardCount) VANGUARD
    ++ replicate (Z.to_nat hunterCount) HUNTER
    ++ replicate (Z.to_nat cowardCount) COWARD in
  shuffleFrom rolls cur (length enemies - 1) enemies.

(** The loop of [generateWaveConfigs] from wave [i] on, [n] waves. *)
Fixpoint configsFrom (rolls : nat -> Q) (cur : nat) (i : Z) (n : nat)
  : list WaveConfig :=
  match n with
  | O => []
  | S k =>
      let bossWave := (Z.rem i 5 =? 0)%Z in
      let baseCount := (3 + Qfloor (inject_Z i * 0.8))%Z in
      let '(enemies, cur1) :=
        if bossWave
        then generateBossWaveEnemies rolls cur i baseCount
        else generateNormalWaveEnemies rolls cur i baseCount in
      {| cfg_wave := i;
         cfg_enemies := enemies;
         cfg_spawnDelay := Math_max 500 (2000 - inject_Z i * 75);
         cfg_bossWave := bossWave |}
      :: configsFrom rolls cur1 (i + 1) k
  end.

Definition generateWaveConfigs (rolls : nat -> Q) : list WaveConfig :=
  configsFrom rolls 0 1 20.

Definition constructor (rolls : nat -> Q) : WaveManager := {|
  currentWave := 0;
  enemiesRemaining := 0;
  activeEnemies := [];
  enemiesToSpawn := None;
  timeSinceLastSpawn := 0;
  spawnDelay := 2000;
  waveConfigs := generateWaveConfigs rolls;
  onWaveComplete := false;
  onEnemyKilled := false;
  totalKills := 0
|}.

Definition set_callbacks (complete killed : bool) (m : WaveManager)
  : WaveManager :=
  {| currentWave := currentWave m; enemiesRemaining := enemiesRemaining m;
     activeEnemies := activeEnemies m; enemiesToSpawn := enemiesToSpawn m;
     timeSinceLastSpawn := timeSinceLastSpawn m; spawnDelay := spawnDelay m;
     waveConfigs := waveConfigs m; onWaveComplete := complete;
     onEnemyKilled := killed; totalKills := totalKills m |}.

Definition set_wave (wave : Z) (config : WaveConfig) (m : WaveManager)
  : WaveManager :=
  {| currentWave := wave;
     enemiesRemaining := Z.of_nat (length (cfg_enemies config));
     activeEnemies := activeEnemies m;
     enemiesToSpawn := Some (cfg_enemies config);
     timeSinceLastSpawn := cfg_spawnDelay config;
     spawnDelay := cfg_spawnDelay config;
     waveConfigs := waveConfigs m; onWaveComplete := onWaveComplete m;
     onEnemyKilled := onEnemyKilled m; totalKills := totalKills m |}.

Definition set_spawn (queue : option (list EnemyType)) (roster : list nat)
  (time : Q) (m : WaveManager) : WaveManager :=
  {| currentWave := currentWave m; enemiesRemaining := enemiesRemaining m;
     activeEnemies := roster; enemiesToSpawn := queue;
     timeSinceLastSpawn := time; spawnDelay := spawnDelay m;
     waveConfigs := waveConfigs m; onWaveComplete := onWaveComplete m;
     onEnemyKilled := onEnemyKilled m; totalKills := totalKills m |}.

Definition set_killed (roster : list nat) (m : WaveManager) : WaveManager :=
  {| currentWave := currentWave m;
     enemiesRemaining := (enemiesRemaining m - 1)%Z;
     activeEnemies := roster; enemiesToSpawn := enemiesToSpawn m;
     timeSinceLastSpawn := timeSinceLastSpawn m; spawnDelay := spawnDelay m;
     waveConfigs := waveConfigs m; onWaveComplete := onWaveComplete m;
     onEnemyKilled := onEnemyKilled m;
     totalKills := (totalKills m + 1)%Z |}.

(** [this.waveConfigs[index]] for an integer index. *)
Definition configAt (m : WaveManager) (index : Z) : option WaveConfig :=
  if (0 <=? index)%Z then waveConfigs m !! Z.to_nat index else None.

(** [startWave(waveNumber = null)] *)
Definition startWave (rolls : nat -> Q) (waveNumber : option Z)
  (m : WaveManager) : WaveManager :=
  let wave :=
    match waveNumber with
    | Some n => n
    | None => (currentWave m + 1)%Z
    end in
  let config :=
    match configAt m (wave - 1) with
    | Some c => c
    | None =>
        {| cfg_wave := wave;
           cfg_enemies :=
             fst (generateNormalWaveEnemies rolls 0 wave (5 + wave));
           cfg_spawnDelay := 500;
           cfg_bossWave := (Z.rem wave 5 =? 0)%Z |}
    end in
  set_wave wave config m.

(** [spawnEnemy(type, playerPosition)]: a new enemy object whose mesh joins
    the scene, pushed on the roster. *)
Definition spawnEnemy (ty : EnemyType) (m : WaveManager) (world : World)
  : WaveManager * World :=
  let k := nextEnemy world in
  let world1 := {|
    objects := <[k := Enemy.create ty]> (objects world);
    poses := poses world;
    scene := {[k]} ∪ scene world;
    nextEnemy := S k |} in
  (set_spawn (enemiesToSpawn m) (activeEnemies m ++ [k])
     (timeSinceLastSpawn m) m, world1).

(** The first block of [update]. *)
Definition spawnStep (deltaTime : Q) (m : WaveManager) (world : World)
  : WaveManager * World :=
  match enemiesToSpawn m with
  | Some (ty :: rest) =>
      let time := timeSinceLastSpawn m + deltaTime in
      if leb (spawnDelay m) time
      then
        let m1 := set_spawn (Some rest) (activeEnemies m) time m in
        let '(m2, world1) := spawnEnemy ty m1 world in
        (set_spawn (enemiesToSpawn m2) (activeEnemies m2) 0 m2, world1)
      else (set_spawn (enemiesToSpawn m) (activeEnemies m) time m, world)
  | _ => (m, world)
  end.

(** The body of the enemy loop at index [i]: the death check.
    [enemy.die()] takes the mesh out of the scene; the enemy object and its
    mesh stay as they are. *)
Definition visit (i : nat) (st : WaveManager * World * list Notification)
  : WaveManager * World * list Notification :=
  let '(m, world, notes) := st in
  match activeEnemies m !! i with
  | Some k =>
      match objects world !! k with
      | Some e =>
          if leb (health e) 0
          then
            (set_killed (delete i (activeEnemies m)) m,
             set_scene (scene world ∖ {[k]}) world,
             notes ++ (if onEnemyKilled m then [EnemyKilled k] else []))
          else st
      | None => st
      end
  | None => st
  end.

(** The enemy loop, for indices [i - 1] down to 0. *)
Fixpoint sweep (i : nat) (st : WaveManager * World * list Notification)
  : WaveManager * World * list Notification :=
  match i with
  | O => st
  | S j => sweep j (visit j st)
  end.

Definition isWaveComplete (m : WaveManager) : bool :=
  (enemiesRemaining m <=? 0)%Z
  && match enemiesToSpawn m with
     | None => true
     | Some queue => bool_decide (length queue = 0%nat)
     end.

(** [update(deltaTime, player, weapons)]: spawning, the death sweep and the
    completion check.  The AI step of each enemy, its attack and
    [updateProjectiles] write neither the wave state nor enemy health and are
    not modelled. *)
Definition update (deltaTime : Q) (m : WaveManager) (world : World)
  : WaveManager * World * list Notification :=
  let '(m1, world1) := spawnStep deltaTime m world in
  let '(m2, world2, notes) :=
    sweep (length (activeEnemies m1)) (m1, world1, []) in
  (m2, world2,
   notes ++
   (if isWaveComplete m2 && onWaveComplete m2
    then [WaveComplete (currentWave m2)] else [])).

(** Consecutive calls of [update], with the notifications of each call. *)
Fixpoint updates (deltaTimes : list Q) (m : WaveManager) (world : World)
  : WaveManager * World * list (list Notification) :=
  match deltaTimes with
  | [] => (m, world, [])
  | deltaTime :: rest =>
      let '(m1, world1, notes) := update deltaTime m world in
      let '(m2, world2, later) := updates rest m1 world1 in
      (m2, world2, notes :: later)
  end.

(** The calls of [onWaveComplete] among the notifications. *)
Definition isCompletion (n : Notification) : bool :=
  match n with
  | WaveComplete _ => true
  | EnemyKilled _ => false
  end.

Definition completions (notes : list Notification) : list Notification :=
  List.filter isCompletion notes.

(** [getEnemies()] *)
Definition getEnemies (m : WaveManager) (world : World) : list Target :=
  omap (fun k =>
    e ← objects world !! k;
    Some {| mesh := Some k; targetRadius := hitRadius e; enemy := k |})
    (activeEnemies m).

(** The band of waves 7 and later. *)
Definition lateType (roll : Q) : EnemyType :=
  if ltb roll 0.2 then COWARD
  else if ltb roll 0.5 then HUNTER
  else VANGUARD.

(** Every roll 0. *)
Definition zeroRolls : nat -> Q := fun _ => 0.

(** What the enemy loop leaves alone. *)
Definition steady (st st' : WaveManager * World * list Notification) : Prop :=
  currentWave (fst (fst st')) = currentWave (fst (fst st)) /\
  onWaveComplete (fst (fst st')) = onWaveComplete (fst (fst st)) /\
  enemiesToSpawn (fst (fst st')) = enemiesToSpawn (fst (fst st)) /\
  (enemiesRemaining (fst (fst st')) <= enemiesRemaining (fst (fst st)))%Z /\
  completions (snd st') = completions (snd st).

(** No enemy yet. *)
Definition emptyWorld : World := {|
  objects := ∅;
  poses := fun _ => {| THREE.vx := 0; THREE.vy := 0; THREE.vz := -1000 |};
  scene := ∅;
  nextEnemy := 0
|}.

(** As [Game.initializeSystems] leaves the wave manager: handlers set. *)
Definition newManager : WaveManager :=
  set_callbacks true true (constructor zeroRolls).

(** Wave 1 as [Game.startGame] starts it, and 41 frames of 100 ms, in
    which its three enemies are spawned. *)
Definition wave1 : WaveManager := startWave zeroRolls (Some 1%Z) newManager.

Definition spawned := updates (replicate 41 100) wave1 emptyWorld.

(** The weapons bring the three enemies to 0 health. *)
Definition killAll (world : World) : World :=
  Enemy.damage 0 40 (Enemy.damage 1 40 (Enemy.damage 2 40 world)).

End WaveManager.

(** ** The game loop (js/game.js), as far as ship, weapons and waves meet *)

Module Game.
Import JS THREE Enemy HandTracker.
Local Open Scope Q_scope.

(** What can happen to the ship's resources between two observations: a
    call made by [Game.update], or a timer callback fired by the browser. *)
Inductive Op :=
| ShipUpdate (now deltaTime : Q) (gesture : Gesture)
| RollFrame (now : Q)
| DrainTick (k : nat)
| ShieldTimeout (k : nat)
| FirePrimary (now : Q) (shipPosition forward : Vector3)
| SelectWeapon (n : Weapons.WeaponName)
| ToggleLaser (active : bool)
| BeamUpdate (deltaTime : Q).

Definition step (op : Op) (st : Aurelian.Aurelian * Weapons.Weapons)
  : Aurelian.Aurelian * Weapons.Weapons :=
  let '(ship, w) := st in
  match op with
  | ShipUpdate now deltaTime gesture =>
      (Aurelian.update now deltaTime gesture ship, w)
  | RollFrame now => (Aurelian.animate now ship, w)
  | DrainTick k => (Aurelian.drainTick k ship, w)
  | ShieldTimeout k => (Aurelian.shieldTimeout k ship, w)
  | FirePrimary now shipPosition forward =>
      let '(_, ship1, w1) :=
        Weapons.firePrimary now shipPosition forward ship w in
      (ship1, w1)
  | SelectWeapon n => (ship, Weapons.selectWeapon n ship w)
  | ToggleLaser active => (ship, Weapons.toggleLaser active ship w)
  | BeamUpdate deltaTime => Weapons.updateBeam (deltaTime * 0.001) ship w
  end.

Definition run (ops : list Op) (st : Aurelian.Aurelian * Weapons.Weapons)
  : Aurelian.Aurelian * Weapons.Weapons :=
  fold_left (fun s op => step op s) ops st.

Definition start : Aurelian.Aurelian * Weapons.Weapons :=
  (Aurelian.constructor, Weapons.constructor).

(** The frame time handed to an operation, if it takes one. *)
Definition deltaTimeOf (op : Op) : option Q :=
  match op with
  | ShipUpdate _ deltaTime _ => Some deltaTime
  | BeamUpdate deltaTime => Some deltaTime
  | _ => None
  end.

Definition forwardInTime (op : Op) : Prop :=
  match deltaTimeOf op with
  | Some deltaTime => 0 <= deltaTime
  | None => True
  end.

(** Operations that drain energy only behind a guard that covers the
    drain: everything but a shield drain tick and a beam update, with a
    frame time for which the boost threshold of 20 covers [30 * dt]. *)
Definition guarded (op : Op) : Prop :=
  match op with
  | ShipUpdate _ deltaTime _ => 0 <= deltaTime /\ 3 * deltaTime <= 2000
  | DrainTick _ => False
  | BeamUpdate _ => False
  | _ => True
  end.

(** A shield held at 10 frames per second: the gesture frame, then a drain
    tick after each further frame. *)
Definition drainCycle (n : nat) : list Op :=
  ShipUpdate 0 100 SHIELD
  :: concat (replicate n [ShipUpdate 0 100 IDLE; DrainTick 0%nat]).

(** The weapon and wave part of [Game.update]: [weapons.update] on the
    array of [getEnemies], then [waveManager.update]. *)
Definition combat (normalize : Vector3 -> Vector3) (now deltaTime : Q)
  (shipPosition : Vector3)
  (g : Aurelian.Aurelian * Weapons.Weapons * WaveManager.WaveManager * World)
  : Aurelian.Aurelian * Weapons.Weapons * WaveManager.WaveManager * World
    * list WaveManager.Notification :=
  let '(ship, w, m, world) := g in
  let enemies := WaveManager.getEnemies m world in
  let '(ship1, w1, world1) :=
    Weapons.update normalize now deltaTime enemies shipPosition ship w world in
  let '(m1, world2, notes) := WaveManager.update deltaTime m world1 in
  (ship1, w1, m1, world2, notes).

(** A boost held over three frames of 100 ms, from the new ship. *)
Definition boostRun : list Op :=
  [ShipUpdate 0 100 BOOST; ShipUpdate 100 100 BOOST; ShipUpdate 200 100 BOOST].

End Game.

(** ** A harpoon, a slug and the last enemy of a wave *)

Module Scenario.
Import JS THREE Enemy Weapons.
Local Open Scope Q_scope.

Section Frames.

(** [Vector3.normalize] *)
Variable normalize : Vector3 -> Vector3.

(** Wave 1 down to its last enemy.  Of the three cowards spawned, enemies 1
    and 2 have been shot down and enemy 0 has taken one slug (15 health
    left) and has come to 100 units ahead of the ship; the update of that
    frame removes the two dead enemies. *)
Definition lastEnemy : WaveManager.WaveManager * World :=
  let '(m, world, _) := WaveManager.spawned in
  let shot :=
    Enemy.damage 0 25 (Enemy.damage 1 40 (Enemy.damage 2 40 world)) in
  let near := set_pose 0 {| vx := 0; vy := 0; vz := -100 |} shot in
  fst (WaveManager.update 16 m near).

(** Select a weapon and fire it from the origin, straight ahead. *)
Definition fireWith (n : WeaponName) (now : Q)
  (g : Aurelian.Aurelian * Weapons * WaveManager.WaveManager * World)
  : Aurelian.Aurelian * Weapons * WaveManager.WaveManager * World :=
  let '(ship, w, m, world) := g in
  let '(_, ship1, w1) :=
    firePrimary now origin ahead ship (selectWeapon n ship w) in
  (ship1, w1, m, world).

(** Frame 1 (5000 ms): the harpoon is fired.  Frame 2 (5016 ms): the
    railgun is fired; its slug and the harpoon both reach the enemy. *)
Definition harpoonFired :=
  fst (Game.combat normalize 5000 16 origin
         (fireWith harpoon 5000
            (Aurelian.constructor, constructor, fst lastEnemy, snd lastEnemy))).

Definition enemyKilled :=
  Game.combat normalize 5016 16 origin (fireWith railgun 5016 harpoonFired).

(** Frame 3 (5032 ms). *)
Definition nextFrame :=
  Game.combat normalize 5032 16 origin (fst enemyKilled).

Definition deadTarget : Target :=
  {| mesh := Some 0%nat; targetRadius := 30; enemy := 0 |}.

End Frames.

End Scenario.

(** ** Hand analysis (js/handTracking.js, [analyzeHand]) *)

Module HandAnalysis.
Import JS HandTracker.
Local Open Scope Q_scope.

Record Landmark := { lx : Q; ly : Q; lz : Q }.

(** The squares of [distance2D] and [distance3D], which take a square
    root. *)
Definition distance2DSquared (a b : Landmark) : Q :=
  (lx a - lx b) * (lx a - lx b) + (ly a - ly b) * (ly a - ly b).

Definition distance3DSquared (a b : Landmark) : Q :=
  (lx a - lx b) * (lx a - lx b) + (ly a - ly b) * (ly a - ly b)
  + (lz a - lz b) * (lz a - lz b).

(** [mcpToTip > mcpToPip * 1.2], decided on the squares of the two
    distances. *)
Definition isFingerExtended (mcp pip tip : Landmark) : bool :=
  ltb (distance2DSquared mcp pip * (1.2 * 1.2)) (distance2DSquared mcp tip).

Definition pinchThreshold : Q := 0.12.

(** [pinchDistance < pinchThreshold], where [pinchDistance] is the
    thumb-to-index distance divided by [palmSize]: decided on the squares.
    With [palmSize = 0] the quotient is Infinity or NaN and the test is
    false, as it is here. *)
Definition pinching (thumbTip indexTip wrist middleMcp : Landmark) : bool :=
  ltb (distance3DSquared thumbTip indexTip)
      (pinchThreshold * pinchThreshold * distance3DSquared wrist middleMcp).

Definition countTrue (flags : list bool) : nat :=
  length (List.filter (fun b : bool => b) flags).

(** [analyzeHand(landmarks)]; [landmarks i] is [landmarks[i]]. *)
Definition analyzeHand (landmarks : nat -> Landmark) : HandData :=
  let wrist := landmarks 0%nat in
  let thumbTip := landmarks 4%nat in
  let indexTip := landmarks 8%nat in
  let middleTip := landmarks 12%nat in
  let ringTip := landmarks 16%nat in
  let pinkyTip := landmarks 20%nat in
  let thumbMcp := landmarks 2%nat in
  let indexMcp := landmarks 5%nat in
  let middleMcp := landmarks 9%nat in
  let ringMcp := landmarks 13%nat in
  let pinkyMcp := landmarks 17%nat in
  let indexPip := landmarks 6%nat in
  let middlePip := landmarks 10%nat in
  let ringPip := landmarks 14%nat in
  let pinkyPip := landmarks 18%nat in
  let indexExtended := isFingerExtended indexMcp indexPip indexTip in
  let middleExtended := isFingerExtended middleMcp middlePip middleTip in
  let ringExtended := isFingerExtended ringMcp ringPip ringTip in
  let pinkyExtended := isFingerExtended pinkyMcp pinkyPip pinkyTip in
  let thumbExtended := ltb (lx thumbTip) (lx thumbMcp) in
  let extendedFingers :=
    countTrue [indexExtended; middleExtended; ringExtended; pinkyExtended] in
  {| palmCenter :=
       {| x := (lx wrist + lx indexMcp + lx pinkyMcp) / 3;
          y := (ly wrist + ly indexMcp + ly pinkyMcp) / 3 |};
     isPinching := pinching thumbTip indexTip wrist middleMcp;
     isFist := (extendedFingers =? 0)%nat && negb thumbExtended;
     isOpenPalm := (3 <=? extendedFingers)%nat && thumbExtended;
     isPointing :=
       indexExtended && negb middleExtended && negb ringExtended
       && negb pinkyExtended;
     indexTip := {| x := lx indexTip; y := ly indexTip |} |}.

(** [handedness.label] *)
Inductive Label := Left | Right.

(** The loop of [processResults] over the detected hands: a hand labelled
    'Left' is stored as the right hand (the image is mirrored). *)
Definition assignHands (results : list ((nat -> Landmark) * Label))
  : option HandData * option HandData :=
  fold_left
    (fun hands result =>
       let handData := analyzeHand (fst result) in
       match snd result with
       | Left => (fst hands, Some handData)
       | Right => (Some handData, snd hands)
       end)
    results (None, None).

(** [processResults(results)] from the landmarks on. *)
Definition processLandmarks (results : list ((nat -> Landmark) * Label))
  (t : HandTracker) : HandTracker * list Notification :=
  let hands := assignHands results in
  processResults (fst hands) (snd hands) t.

(** The hand moved by [d] and scaled by [k] about the origin. *)
Definition transform (k : Q) (d : Landmark) (p : Landmark) : Landmark :=
  {| lx := k * lx p + lx d; ly := k * ly p + ly d; lz := k * lz p + lz d |}.

End HandAnalysis.

(** ** Score and combo (class HUD) *)

Module HUD.
Import JS.
Local Open Scope Q_scope.

(** The state of the HUD; the DOM elements it writes are left out. *)
Record HUD := {
  score : Z;
  combo : Z;
  comboTimer : Q;
  maxCombo : Z
}.

Definition constructor : HUD :=
  {| score := 0; combo := 1; comboTimer := 0; maxCombo := 1 |}.

Definition addScore (points : Z) (h : HUD) : HUD :=
  let scoredPoints := (points * combo h)%Z in
  {| score := (score h + scoredPoints)%Z; combo := combo h;
     comboTimer := 3000; maxCombo := maxCombo h |}.

Definition incrementCombo (h : HUD) : HUD :=
  {| score := score h; combo := (combo h + 1)%Z;
     comboTimer := comboTimer h;
     maxCombo := Z.max (maxCombo h) (combo h + 1) |}.

Definition updateCombo (deltaTime : Q) (h : HUD) : HUD :=
  if ltb 0 (comboTimer h)
  then
    let timer := comboTimer h - deltaTime in
    if leb timer 0
    then {| score := score h; combo := 1; comboTimer := timer;
            maxCombo := maxCombo h |}
    else {| score := score h; combo := combo h; comboTimer := timer;
            maxCombo := maxCombo h |}
  else h.

(** [update(deltaTime)] *)
Definition update (deltaTime : Q) (h : HUD) : HUD := updateCombo deltaTime h.

Definition reset (h : HUD) : HUD :=
  {| score := 0; combo := 1; comboTimer := 0; maxCombo := maxCombo h |}.

(** [Game.onEnemyKilled(enemy)]: the score of the type, then the combo. *)
Definition killScore (ty : Enemy.EnemyType) : Z :=
  match ty with
  | Enemy.VANGUARD => 300
  | Enemy.HUNTER => 200
  | Enemy.COWARD => 100
  end.

Definition onEnemyKilled (ty : Enemy.EnemyType) (h : HUD) : HUD :=
  incrementCombo (addScore (killScore ty) h).

(** [Game.onWaveComplete(wave)] *)
Definition onWaveComplete (wave : Z) (h : HUD) : HUD :=
  addScore (1000 * wave) h.

(** What the game does to the HUD. *)
Inductive Event :=
| Kill (ty : Enemy.EnemyType)
| Wave (wave : Z)
| Frame (deltaTime : Q)
| Reset.

Definition handle (h : HUD) (e : Event) : HUD :=
  match e with
  | Kill ty => onEnemyKilled ty h
  | Wave wave => onWaveComplete wave h
  | Frame deltaTime => update deltaTime h
  | Reset => reset h
  end.

Definition play (events : list Event) (h : HUD) : HUD :=
  fold_left handle events h.

(** Frames only. *)
Definition frames (deltaTimes : list Q) (h : HUD) : HUD :=
  fold_left (fun h deltaTime => update deltaTime h) deltaTimes h.

Definition total (deltaTimes : list Q) : Q :=
  fold_right Qplus 0 deltaTimes.

End HUD.

(** ** Enemy decisions (js/combat/enemyAI.js) *)

Module EnemyAI.
Import JS Enemy.
Local Open Scope Q_scope.

Inductive State :=
| idle | pursue | charge | ram | kamikaze | retreat | evade | strafe
| flank | flee | snipe | approach.

#[global] Instance State_eq_dec : EqDecision State.
Proof. solve_decision. Defined.

(** The entries of [initStats] that the decisions read. *)
Definition attackRange (ty : EnemyType) : Q :=
  match ty with VANGUARD => 100 | HUNTER => 300 | COWARD => 400 end.

Definition attackCooldown (ty : EnemyType) : Q :=
  match ty with VANGUARD => 2000 | HUNTER => 1000 | COWARD => 800 end.

Definition retreatThreshold (ty : EnemyType) : Q :=
  match ty with VANGUARD => 0.1 | HUNTER => 0.3 | COWARD => 0.5 end.

Definition attackDamage (ty : EnemyType) : Q :=
  match ty with VANGUARD => 20 | HUNTER => 15 | COWARD => 10 end.

(** An enemy with its AI state.  [hasTarget] says whether [this.target] is
    set; the distances to the target, which take a square root, are
    arguments of the operations that measure them. *)
Record Agent := {
  body : Enemy;
  state : State;
  hasTarget : bool;
  stateTimer : Q;
  lastAttack : Q
}.

Definition create (ty : EnemyType) : Agent :=
  {| body := Enemy.create ty; state := idle; hasTarget := false;
     stateTimer := 0; lastAttack := 0 |}.

Definition updateVanguardAI (distance healthPercent : Q) : State :=
  if ltb healthPercent (retreatThreshold VANGUARD) then kamikaze
  else if ltb distance (attackRange VANGUARD) then ram
  else if ltb distance 800 then charge
  else pursue.

Definition updateHunterAI (distance healthPercent : Q) : State :=
  if ltb healthPercent (retreatThreshold HUNTER) then retreat
  else if ltb distance 150 then evade
  else if ltb distance (attackRange HUNTER) then strafe
  else if ltb distance 600 then flank
  else pursue.

Definition updateCowardAI (distance healthPercent : Q) : State :=
  if ltb healthPercent (retreatThreshold COWARD) then flee
  else if ltb distance 200 then flee
  else if ltb distance (attackRange COWARD) then snipe
  else if ltb distance 800 then approach
  else idle.

Definition healthPercent (a : Agent) : Q :=
  health (body a) / maxHealth (body a).

(** [updateAI(dt)], with the distance to the target it measures. *)
Definition updateAI (dt distanceToTarget : Q) (a : Agent) : Agent :=
  if hasTarget a
  then
    let s :=
      match type (body a) with
      | VANGUARD => updateVanguardAI distanceToTarget (healthPercent a)
      | HUNTER => updateHunterAI distanceToTarget (healthPercent a)
      | COWARD => updateCowardAI distanceToTarget (healthPercent a)
      end in
    {| body := body a; state := s; hasTarget := true;
       stateTimer := stateTimer a + dt; lastAttack := lastAttack a |}
  else a.

(** [update(deltaTime, player)]: the target is set, then the decision, on
    the distance measured before the enemy moves.  The movement that follows
    is not modelled: an operation that measures the distance after it takes
    that distance as an argument of its own. *)
Definition update (deltaTime distanceToTarget : Q) (a : Agent) : Agent :=
  let dt := deltaTime * 0.001 in
  updateAI dt distanceToTarget
    {| body := body a; state := state a; hasTarget := true;
       stateTimer := stateTimer a; lastAttack := lastAttack a |}.

Definition attackState (s : State) : bool :=
  match s with
  | strafe | snipe | ram | kamikaze => true
  | _ => false
  end.

(** [canAttack()], at time [now] and distance [distance] from the target. *)
Definition canAttack (now distance : Q) (a : Agent) : bool :=
  if negb (hasTarget a) then false
  else if ltb (now - lastAttack a) (attackCooldown (type (body a))) then false
  else if ltb (attackRange (type (body a))) distance then false
  else attackState (state a).

(** The damage and type of the descriptor [attack()] returns. *)
Record Attack := { damage : Q; attacker : EnemyType }.

Definition attack (now distance : Q) (a : Agent) : Agent * option Attack :=
  if negb (canAttack now distance a) then (a, None)
  else
    ({| body := body a; state := state a; hasTarget := hasTarget a;
        stateTimer := stateTimer a; lastAttack := now |},
     Some {| damage := attackDamage (type (body a));
             attacker := type (body a) |}).

(** [takeDamage(amount)] on the body. *)
Definition takeDamage (amount : Q) (a : Agent) : Agent * bool :=
  let '(b, dead) := Enemy.takeDamage amount (body a) in
  ({| body := b; state := state a; hasTarget := hasTarget a;
      stateTimer := stateTimer a; lastAttack := lastAttack a |}, dead).

(** Where each type can be in an attack state, from the distance measured
    by [updateAI] and the health fraction. *)
Definition inBand (ty : EnemyType) (distance healthPercent : Q) : Prop :=
  match ty with
  | VANGUARD => healthPercent < 0.1 \/ distance < 100
  | HUNTER => 0.3 <= healthPercent /\ 150 <= distance /\ distance < 300
  | COWARD => 0.5 <= healthPercent /\ 200 <= distance /\ distance < 400
  end.

(** A run of AI updates, each with its frame time and measured distance. *)
Definition updates (frames : list (Q * Q)) (a : Agent) : Agent :=
  fold_left (fun a f => update (fst f) (snd f) a) frames a.

End EnemyAI.

(** ** Enemy fire (combat/waveManager.js, [updateProjectiles]) *)

Module EnemyFire.
Import JS THREE.
Local Open Scope Q_scope.

(** [userData] and position of an entry of [this.enemyProjectiles]. *)
Record Projectile := {
  position : Vector3;
  velocity : Vector3;
  damage : Q;
  created : Q;
  lifetime : Q
}.

(** [createEnemyProjectile(attack)], with [normalize] for
    [Vector3.normalize]. *)
Definition createEnemyProjectile (normalize : Vector3 -> Vector3) (now : Q)
  (origin target : Vector3) (attackDamage : Q) : Projectile :=
  let direction := normalize (sub target origin) in
  {| position := origin;
     velocity := multiplyScalar direction 600;
     damage := attackDamage;
     created := now;
     lifetime := 5000 |}.

(** The body of the loop for one projectile: [None] when it is spliced
    out. *)
Definition updateProjectile (dt now : Q) (playerPosition : Vector3)
  (p : Projectile) (player : Aurelian.Aurelian)
  : option Projectile * Aurelian.Aurelian :=
  let p1 := {|
    position := add (position p) (multiplyScalar (velocity p) dt);
    velocity := velocity p; damage := damage p;
    created := created p; lifetime := lifetime p |} in
  if ltb (lifetime p1) (now - created p1) then (None, player)
  else if distanceTo_lt (position p1) playerPosition 40
  then (None, fst (Aurelian.takeDamage (damage p1) player))
  else (Some p1, player).

(** The loop runs from the last index down to 0. *)
Fixpoint updateProjectilesFrom (dt now : Q) (playerPosition : Vector3)
  (ps : list Projectile) (player : Aurelian.Aurelian)
  : list Projectile * Aurelian.Aurelian :=
  match ps with
  | [] => ([], player)
  | p :: rest =>
      let '(rest1, player1) :=
        updateProjectilesFrom dt now playerPosition rest player in
      match updateProjectile dt now playerPosition p player1 with
      | (Some p1, player2) => (p1 :: rest1, player2)
      | (None, player2) => (rest1, player2)
      end
  end.

(** [updateProjectiles(deltaTime, player)] *)
Definition updateProjectiles (now deltaTime : Q) (playerPosition : Vector3)
  (ps : list Projectile) (player : Aurelian.Aurelian)
  : list Projectile * Aurelian.Aurelian :=
  updateProjectilesFrom (deltaTime * 0.001) now playerPosition ps player.

(** The damage carried by the projectiles that reach the player in this
    update. *)
Fixpoint incoming (dt now : Q) (playerPosition : Vector3)
  (ps : list Projectile) : Q :=
  match ps with
  | [] => 0
  | p :: rest =>
      let moved := add (position p) (multiplyScalar (velocity p) dt) in
      (if negb (ltb (lifetime p) (now - created p))
          && distanceTo_lt moved playerPosition 40
       then damage p else 0)
      + incoming dt now playerPosition rest
  end.

End EnemyFire.

(** ** Further operations of the weapons, the wave manager and the game *)

Module Upkeep.
Import JS THREE Enemy HandTracker.
Local Open Scope Q_scope.

(** [Weapons.destroyBeam()]: [this.activeBeam] is dropped; the flag
    [laser.active] is not written. *)
Definition destroyBeam (w : Weapons.Weapons) : Weapons.Weapons :=
  Weapons.set_laser (Weapons.laserActive w) false w.

(** [Weapons.cleanup()] *)
Definition weaponsCleanup (w : Weapons.Weapons) : Weapons.Weapons :=
  Weapons.set_harpoons []
    (destroyBeam (Weapons.set_projectiles [] w)).

(** [Weapons.getCooldownProgress(weaponName)] at time [now]; [None] is
    NaN, the result of the arithmetic on an undefined [lastFired]. *)
Definition getCooldownProgress (now : Q) (n : Weapons.WeaponName)
  (w : Weapons.Weapons) : option Q :=
  if Qeq_bool (Weapons.cooldown n) 0 then Some 1
  else
    match Weapons.lastFired w n with
    | Some t => Some (Math_min 1 ((now - t) / Weapons.cooldown n))
    | None => None
    end.

(** [WaveManager.cleanup()]: the meshes of the roster leave the scene and
    the roster is emptied; counters and queue are not written. *)
Definition waveCleanup (m : WaveManager.WaveManager) (world : World)
  : WaveManager.WaveManager * World :=
  (WaveManager.set_spawn (WaveManager.enemiesToSpawn m) []
     (WaveManager.timeSinceLastSpawn m) m,
   set_scene (scene world ∖ list_to_set (WaveManager.activeEnemies m)) world).

(** The weapon block of [Game.update]: the result says which sound is
    played, if any. *)
Inductive Sound := RailgunSound | ExplosionSound.

Definition fire (now : Q) (shipPosition forward : Vector3)
  (gesture : Gesture) (ship : Aurelian.Aurelian) (w : Weapons.Weapons)
  : option Sound * Aurelian.Aurelian * Weapons.Weapons :=
  match gesture with
  | FIRE_PRIMARY =>
      let '(ok, ship1, w1) :=
        Weapons.firePrimary now shipPosition forward ship w in
      (if ok then Some RailgunSound else None, ship1, w1)
  | FIRE_SECONDARY =>
      let w0 :=
        if decide (Weapons.currentWeapon w <> Weapons.harpoon)
        then Weapons.selectWeapon Weapons.harpoon ship w
        else w in
      let '(ok, ship1, w1) :=
        Weapons.firePrimary now shipPosition forward ship w0 in
      (if ok then Some ExplosionSound else None, ship1, w1)
  | _ => (None, ship, w)
  end.

(** [Game.startGame()] on the ship, which lives on across games: hull,
    shield and energy are set to their maxima; flags and timers are not
    written. *)
Definition restart (s : Aurelian.Aurelian) : Aurelian.Aurelian :=
  Aurelian.set_energy (Aurelian.maxEnergy s)
    (Aurelian.set_shield (Aurelian.maxShield s)
       (Aurelian.set_hull (Aurelian.maxHull s) s)).

(** What happens to the ship alone: the operations of [Game.Op] on the
    ship, damage, and the start of a new game. *)
Inductive ShipEvent :=
| Update (now deltaTime : Q) (gesture : Gesture)
| Animate (now : Q)
| Drain (k : nat)
| Timeout (k : nat)
| Damage (amount : Q)
| Restart.

Definition apply (s : Aurelian.Aurelian) (e : ShipEvent) : Aurelian.Aurelian :=
  match e with
  | Update now deltaTime gesture => Aurelian.update now deltaTime gesture s
  | Animate now => Aurelian.animate now s
  | Drain k => Aurelian.drainTick k s
  | Timeout k => Aurelian.shieldTimeout k s
  | Damage amount => fst (Aurelian.takeDamage amount s)
  | Restart => restart s
  end.

Definition isRestart (e : ShipEvent) : bool :=
  match e with Restart => true | _ => false end.

(** What is called on the ship and its weapons: an operation of [Game.Op],
    or the [weapons.cleanup()] of [startGame] and [returnToMenu]. *)
Inductive Call :=
| Operation (op : Game.Op)
| Cleanup.

Definition call (st : Aurelian.Aurelian * Weapons.Weapons) (c : Call)
  : Aurelian.Aurelian * Weapons.Weapons :=
  match c with
  | Operation op => Game.step op st
  | Cleanup => (fst st, weaponsCleanup (snd st))
  end.

Definition calls (cs : list Call) (st : Aurelian.Aurelian * Weapons.Weapons)
  : Aurelian.Aurelian * Weapons.Weapons :=
  fold_left call cs st.

Definition isCleanup (c : Call) : bool :=
  match c with Cleanup => true | Operation _ => false end.

Definition history (events : list ShipEvent) (s : Aurelian.Aurelian)
  : Aurelian.Aurelian :=
  fold_left apply events s.

(** Time runs forward and damage is not negative. *)
Definition sane (e : ShipEvent) : Prop :=
  match e with
  | Update _ deltaTime _ => 0 <= deltaTime
  | Damage amount => 0 <= amount
  | _ => True
  end.

(** The timers of the shield are consistent: every live drain interval has
    its timeout pending, every handle was handed out, and an active shield
    has a live drain. *)
Definition timersConsistent (s : Aurelian.Aurelian) : Prop :=
  Aurelian.drainIntervals s ⊆ Aurelian.shieldTimeouts s /\
  (forall k, k ∈ Aurelian.shieldTimeouts s -> (k < Aurelian.nextTimer s)%nat) /\
  (Aurelian.shieldActive s = true -> Aurelian.drainIntervals s <> ∅).

(** The spawn queue, empty while [enemiesToSpawn] is undefined. *)
Definition queue (m : WaveManager.WaveManager) : list EnemyType :=
  default [] (WaveManager.enemiesToSpawn m).

(** The counter of remaining enemies counts the queue and the roster. *)
Definition balanced (m : WaveManager.WaveManager) : Prop :=
  WaveManager.enemiesRemaining m =
  (Z.of_nat (length (queue m))
   + Z.of_nat (length (WaveManager.activeEnemies m)))%Z.

(** The death check of the enemy loop, negated. *)
Definition alive (world : World) (k : nat) : bool :=
  match objects world !! k with
  | Some e => negb (leb (health e) 0)
  | None => true
  end.

(** The calls of [onEnemyKilled] among the notifications. *)
Definition kills (notes : list WaveManager.Notification) : list nat :=
  omap (fun n => match n with
                 | WaveManager.EnemyKilled k => Some k
                 | WaveManager.WaveComplete _ => None
                 end) notes.

(** [Math.random()] returns a number in [0, 1). *)
Definition fair (rolls : nat -> Q) : Prop :=
  forall k, 0 <= rolls k /\ rolls k < 1.

End Upkeep.

(** * Properties *)

(** ** Comparisons *)

Module JSFacts.
Import JS.
Local Open Scope Q_scope.

Lemma ltb_lt a b : ltb a b = true <-> a < b.
Proof.
  unfold ltb. rewrite negb_true_iff, <- not_true_iff_false, Qle_bool_iff.
  split; [apply Qnot_le_lt | apply Qlt_not_le].
Qed.

Lemma ltb_ge a b : ltb a b = false <-> b <= a.
Proof. unfold ltb. rewrite negb_false_iff. apply Qle_bool_iff. Qed.

Lemma leb_le a b : leb a b = true <-> a <= b.
Proof. apply Qle_bool_iff. Qed.

Lemma leb_gt a b : leb a b = false <-> b < a.
Proof.
  unfold leb. rewrite <- not_true_iff_false, Qle_bool_iff.
  split; [apply Qnot_le_lt | apply Qlt_not_le].
Qed.

(** Case analysis on a comparison, leaving the order fact as a hypothesis. *)
Ltac cases_cmp :=
  repeat match goal with
  | |- context [ltb ?a ?b] =>
      let H := fresh "Hcmp" in
      destruct (ltb a b) eqn:H;
      [apply ltb_lt in H | apply ltb_ge in H]
  | |- context [leb ?a ?b] =>
      let H := fresh "Hcmp" in
      destruct (leb a b) eqn:H;
      [apply leb_le in H | apply leb_gt in H]
  end.

Lemma Math_min_spec a b :
  (a <= b /\ Math_min a b = a) \/ (b < a /\ Math_min a b = b).
Proof. unfold Math_min. cases_cmp; auto. Qed.

Lemma Math_max_spec a b :
  (a <= b /\ Math_max a b = b) \/ (b < a /\ Math_max a b = a).
Proof. unfold Math_max. cases_cmp; auto. Qed.

Lemma Math_min_le_l a b : Math_min a b <= a.
Proof. destruct (Math_min_spec a b) as [[? ->]|[? ->]]; lra. Qed.

Lemma Math_min_le_r a b : Math_min a b <= b.
Proof. destruct (Math_min_spec a b) as [[? ->]|[? ->]]; lra. Qed.
End JSFacts.

(** ** Gesture classifier *)

Module HandTrackerSpec.
Import JS JSFacts HandTracker.
Local Open Scope Q_scope.

Lemma twoHandGesture_not_idle l r : twoHandGesture l r <> Some IDLE.
Proof.
  unfold twoHandGesture. destruct l, r; try discriminate.
  repeat match goal with |- context [if ?c then _ else _] => destruct c end;
    discriminate.
Qed.

Lemma rightHandGesture_not_idle r : rightHandGesture r <> Some IDLE.
Proof.
  unfold rightHandGesture. destruct r; try discriminate.
  repeat match goal with |- context [if ?c then _ else _] => destruct c end;
    discriminate.
Qed.

Lemma leftHandGesture_not_idle l : leftHandGesture l <> Some IDLE.
Proof.
  unfold leftHandGesture. destruct l; try discriminate.
  destruct (isPinching _); discriminate.
Qed.

(** What [detectGesture] notifies: the handler runs only on the path that
    falls through to IDLE, every other gesture returns before the call. *)
Lemma detectGesture_notifies_only_idle t :
  snd (detectGesture t) =
  if bool_decide (currentGesture (fst (detectGesture t)) = IDLE)
     && bool_decide (IDLE <> currentGesture t) && onGestureChange t
  then [GestureChange IDLE (currentGesture t)] else [].
Proof.
  unfold detectGesture.
  pose proof (twoHandGesture_not_idle (leftHand t) (rightHand t)) as H2.
  pose proof (rightHandGesture_not_idle (rightHand t)) as Hr.
  pose proof (leftHandGesture_not_idle (leftHand t)) as Hl.
  destruct (twoHandGesture _ _) as [g|]; simpl.
  { rewrite bool_decide_eq_false_2; [reflexivity | congruence]. }
  destruct (rightHandGesture _) as [g|]; simpl.
  { rewrite bool_decide_eq_false_2; [reflexivity | congruence]. }
  destruct (leftHandGesture _) as [g|]; simpl.
  { rewrite bool_decide_eq_false_2; [reflexivity | congruence]. }
  reflexivity.
Qed.

(** C2 (fails on the code).  With a handler registered and the tracker at
    IDLE, a frame that shows an open right palm changes the gesture to
    THRUST, and [detectGesture] emits no notification: the early [return]
    of the THRUST branch skips the call of [onGestureChange]. *)
Theorem gesture_change_to_thrust_not_notified :
  let t := setHands None (Some openPalm) (setOnGestureChange constructor) in
  onGestureChange t = true /\
  currentGesture t = IDLE /\
  currentGesture (fst (detectGesture t)) = THRUST /\
  previousGesture (fst (detectGesture t)) = IDLE /\
  snd (detectGesture t) = [] /\
  snd (processResults None (Some openPalm) (setOnGestureChange constructor))
  = [].
Proof. repeat split. Qed.













End HandTrackerSpec.

(** ** Player ship *)

Module AurelianSpec.
Import JS JSFacts HandTracker Aurelian.
Local Open Scope Q_scope.

(** [takeDamage] on a vulnerable ship, in the domain the game uses it in. *)
Lemma takeDamage_vulnerable s amount :
  isInvulnerable s = false -> 0 <= shield s -> 0 <= amount ->
  let absorbed := Math_min (shield s) amount in
  let s' := fst (takeDamage amount s) in
  shield s' == shield s - absorbed /\
  hull s' == hull s - (amount - absorbed) /\
  snd (takeDamage amount s) = Some (leb (hull s') 0).
Proof.
  intros Hinv Hshield Hamount absorbed s'. subst absorbed s'.
  unfold takeDamage. rewrite Hinv.
  destruct (Math_min_spec (shield s) amount) as [[Hm Em]|[Hm Em]];
    rewrite ?Em;
    (destruct (ltb 0 (shield s)) eqn:Hs;
      [apply ltb_lt in Hs | apply ltb_ge in Hs]); simpl; rewrite ?Em; simpl;
    repeat match goal with
    | |- context [ltb ?a ?b] =>
        let H := fresh "Hc" in
        destruct (ltb a b) eqn:H;
        [apply ltb_lt in H | apply ltb_ge in H]; simpl
    end;
    repeat split; try reflexivity; lra.
Qed.

Lemma takeDamage_invulnerable s amount :
  isInvulnerable s = true -> takeDamage amount s = (s, None).
Proof. intros H. unfold takeDamage. rewrite H. reflexivity. Qed.

Lemma processGesture_shield now gesture dt s :
  shield (processGesture now gesture dt s) = shield s /\
  maxShield (processGesture now gesture dt s) = maxShield s.
Proof.
  unfold processGesture, boost, barrelRoll, activateShield, animate.
  destruct gesture; simpl;
    repeat match goal with
    | |- context [if ?c then _ else _] => destruct c; simpl
    end; split; reflexivity.
Qed.

(** The shield of a ship never becomes negative: the domain of the damage
    contract is closed under the operations that write the shield. *)
Lemma shield_stays_nonneg s :
  0 <= shield s -> 0 <= maxShield s ->
  (forall amount, 0 <= amount -> 0 <= shield (fst (takeDamage amount s))) /\
  (forall now deltaTime gesture, 0 <= deltaTime ->
     0 <= shield (update now deltaTime gesture s)).
Proof.
  intros Hs Hm. split.
  - intros amount Ha. destruct (isInvulnerable s) eqn:Hi.
    + rewrite takeDamage_invulnerable by exact Hi. exact Hs.
    + destruct (takeDamage_vulnerable s amount Hi Hs Ha) as (E & _).
      rewrite E. pose proof (Math_min_le_l (shield s) amount). lra.
  - intros now deltaTime gesture Hd. unfold update.
    destruct (processGesture_shield now gesture (deltaTime * 0.001) s)
      as [E1 E2].
    set (s1 := processGesture now gesture (deltaTime * 0.001) s) in *.
    clearbody s1. simpl. rewrite E1, E2.
    destruct (ltb (shield s) (maxShield s)); simpl; [|rewrite E1; exact Hs].
    destruct (Math_min_spec (maxShield s) (shield s + 5 * (deltaTime * 0.001)))
      as [[_ ->]|[_ ->]]; lra.
Qed.

(** C4.  On a ship that is not invulnerable, with a shield that is not
    negative and a damage amount that is not negative, [takeDamage] takes
    [min(shield, amount)] off the shield and the rest off the hull, and
    returns true exactly when the hull it leaves is at or below 0.  On
    shield 30, hull 100, amount 50 it leaves shield 0, hull 80 and returns
    false; on shield 0, hull 10, amount 50 it leaves hull -40 and returns
    true. *)
Theorem takeDamage_shield_then_hull s amount :
  isInvulnerable s = false -> 0 <= shield s -> 0 <= amount ->
  let absorbed := Math_min (shield s) amount in
  let s' := fst (takeDamage amount s) in
  shield s' == shield s - absorbed /\
  hull s' == hull s - (amount - absorbed) /\
  (snd (takeDamage amount s) = Some true <-> hull s' <= 0) /\
  (snd (takeDamage amount s) = Some false <-> ~ hull s' <= 0) /\
  (let a := fst (takeDamage 50 (set_hull 100 (set_shield 30 constructor))) in
   shield a == 0 /\ hull a == 80 /\
   snd (takeDamage 50 (set_hull 100 (set_shield 30 constructor)))
   = Some false) /\
  (let b := fst (takeDamage 50 (set_hull 10 (set_shield 0 constructor))) in
   shield b == 0 /\ hull b == -40 /\
   snd (takeDamage 50 (set_hull 10 (set_shield 0 constructor)))
   = Some true).
Proof.
  intros Hinv Hshield Hamount absorbed s'.
  destruct (takeDamage_vulnerable s amount Hinv Hshield Hamount)
    as (Hs & Hh & Hr).
  fold s' in Hr. subst absorbed.
  split; [exact Hs|]. split; [exact Hh|].
  rewrite Hr.
  split; [|split; [|split]].
  - rewrite <- leb_le. split; [congruence | intros ->; reflexivity].
  - rewrite <- leb_le. destruct (leb (hull s') 0); split; congruence.
  - vm_compute. repeat split; discriminate.
  - vm_compute. repeat split; discriminate.
Qed.

Lemma takeDamage_shield_then_hull_witness :
  let s := constructor in
  let amount := 130 in
  (isInvulnerable s = false /\ 0 <= shield s /\ 0 <= amount) /\
  let absorbed := Math_min (shield s) amount in
  let s' := fst (takeDamage amount s) in
  shield s' == shield s - absorbed /\
  hull s' == hull s - (amount - absorbed) /\
  (snd (takeDamage amount s) = Some true <-> hull s' <= 0) /\
  (snd (takeDamage amount s) = Some false <-> ~ hull s' <= 0) /\
  (let a := fst (takeDamage 50 (set_hull 100 (set_shield 30 constructor))) in
   shield a == 0 /\ hull a == 80 /\
   snd (takeDamage 50 (set_hull 100 (set_shield 30 constructor)))
   = Some false) /\
  (let b := fst (takeDamage 50 (set_hull 10 (set_shield 0 constructor))) in
   shield b == 0 /\ hull b == -40 /\
   snd (takeDamage 50 (set_hull 10 (set_shield 0 constructor)))
   = Some true).
Proof.
  split; [repeat split; simpl; lra|].
  apply (takeDamage_shield_then_hull constructor 130);
    [reflexivity | simpl; lra | lra].
Defined.

Lemma div500 (e : Q) : e / 500 = e * (1 # 500).
Proof. reflexivity. Qed.

(** The roll animation leaves the ship alone before 500 ms have passed and
    clears the flag from then on. *)
Lemma animate_before now start s :
  rollStart s = Some start -> now - start < 500 -> animate now s = s.
Proof.
  intros Hr Ht. unfold animate. rewrite Hr.
  assert (H : ltb (Math_min ((now - start) / 500) 1) 1 = true).
  { apply ltb_lt. pose proof (Math_min_le_l ((now - start) / 500) 1) as Hm.
    rewrite div500 in *. lra. }
  rewrite H. reflexivity.
Qed.

Lemma animate_after now start s :
  rollStart s = Some start -> 500 <= now - start ->
  animate now s = set_rollStart None (set_isInvulnerable false s).
Proof.
  intros Hr Ht. unfold animate. rewrite Hr.
  assert (H : ltb (Math_min ((now - start) / 500) 1) 1 = false).
  { apply ltb_ge.
    destruct (Math_min_spec ((now - start) / 500) 1) as [[Hm ->]|[Hm ->]];
      rewrite ?div500 in *; lra. }
  rewrite H. reflexivity.
Qed.

Lemma barrelRoll_refused now s :
  isInvulnerable s = true \/ energy s < 20 -> barrelRoll now s = s.
Proof.
  intros H. unfold barrelRoll. destruct (isInvulnerable s); [reflexivity|].
  destruct H as [H|H]; [discriminate|].
  apply ltb_lt in H. rewrite H. reflexivity.
Qed.

Lemma barrelRoll_started now s :
  isInvulnerable s = false -> 20 <= energy s ->
  barrelRoll now s =
  set_rollStart (Some now)
    (set_energy (energy s - 20) (set_isInvulnerable true s)).
Proof.
  intros Hi He. unfold barrelRoll. rewrite Hi.
  apply ltb_ge in He. rewrite He.
  apply animate_before with (start := now); [reflexivity | lra].
Qed.

(** C5.  [barrelRoll] does nothing on a ship that is invulnerable or has
    less than 20 energy.  Otherwise it takes exactly 20 energy and sets the
    invulnerable flag; the flag stays set at every animation frame less than
    500 ms after the start and is cleared by the first one at 500 ms or
    later.  While the flag is set, [takeDamage] changes nothing and returns
    no death signal; once it is cleared, [takeDamage] takes the damage off
    shield and hull as on any vulnerable ship. *)
Theorem barrelRoll_invulnerability_window now s :
  isInvulnerable s = false -> 20 <= energy s -> 0 <= shield s ->
  let rolling := barrelRoll now s in
  (forall t s0, isInvulnerable s0 = true \/ energy s0 < 20 ->
     barrelRoll t s0 = s0) /\
  isInvulnerable rolling = true /\
  energy rolling == energy s - 20 /\
  hull rolling = hull s /\ shield rolling = shield s /\
  (forall t, t - now < 500 -> animate t rolling = rolling) /\
  (forall amount s0, isInvulnerable s0 = true ->
     takeDamage amount s0 = (s0, None)) /\
  (forall amount, takeDamage amount rolling = (rolling, None)) /\
  (forall t amount, 500 <= t - now -> 0 <= amount ->
     let expired := animate t rolling in
     let hit := fst (takeDamage amount expired) in
     isInvulnerable expired = false /\
     shield hit == shield s - Math_min (shield s) amount /\
     hull hit == hull s - (amount - Math_min (shield s) amount) /\
     snd (takeDamage amount expired) = Some (leb (hull hit) 0)).
Proof.
  intros Hi He Hs rolling. subst rolling.
  rewrite (barrelRoll_started now s Hi He).
  split; [intros; apply barrelRoll_refused; assumption|].
  split; [reflexivity|]. split; [simpl; lra|].
  split; [reflexivity|]. split; [reflexivity|].
  split; [intros t Ht; apply animate_before with (start := now);
          [reflexivity | exact Ht]|].
  split; [intros; apply takeDamage_invulnerable; assumption|].
  split; [intros; apply takeDamage_invulnerable; reflexivity|].
  intros t amount Ht Ha.
  rewrite (animate_after t now) by (reflexivity || exact Ht).
  split; [reflexivity|].
  apply (takeDamage_vulnerable
           (set_rollStart None (set_isInvulnerable false
              (set_rollStart (Some now)
                 (set_energy (energy s - 20) (set_isInvulnerable true s)))))
           amount); [reflexivity | exact Hs | exact Ha].
Qed.

Lemma barrelRoll_invulnerability_window_witness :
  let now := 1000 in
  let s := constructor in
  (isInvulnerable s = false /\ 20 <= energy s /\ 0 <= shield s) /\
  let rolling := barrelRoll now s in
  (forall t s0, isInvulnerable s0 = true \/ energy s0 < 20 ->
     barrelRoll t s0 = s0) /\
  isInvulnerable rolling = true /\
  energy rolling == energy s - 20 /\
  hull rolling = hull s /\ shield rolling = shield s /\
  (forall t, t - now < 500 -> animate t rolling = rolling) /\
  (forall amount s0, isInvulnerable s0 = true ->
     takeDamage amount s0 = (s0, None)) /\
  (forall amount, takeDamage amount rolling = (rolling, None)) /\
  (forall t amount, 500 <= t - now -> 0 <= amount ->
     let expired := animate t rolling in
     let hit := fst (takeDamage amount expired) in
     isInvulnerable expired = false /\
     shield hit == shield s - Math_min (shield s) amount /\
     hull hit == hull s - (amount - Math_min (shield s) amount) /\
     snd (takeDamage amount expired) = Some (leb (hull hit) 0)).
Proof.
  split; [repeat split; simpl; lra|].
  apply (barrelRoll_invulnerability_window 1000 constructor);
    [reflexivity | simpl; lra | simpl; lra].
Defined.

End AurelianSpec.

(** ** Weapons *)

Module WeaponsSpec.
Import JS JSFacts THREE Enemy Weapons.
Local Open Scope Q_scope.

(** The failure half of the fire contract. *)
Lemma firePrimary_refused now shipPosition forward ship w :
  coolingDown now (currentWeapon w) w = true
  \/ Aurelian.energy ship < energyCost (currentWeapon w) ->
  firePrimary now shipPosition forward ship w = (false, ship, w).
Proof.
  intros H. unfold firePrimary.
  destruct (coolingDown _ _ _); [reflexivity|].
  destruct H as [H|H]; [discriminate|].
  apply ltb_lt in H. rewrite H. reflexivity.
Qed.

(** The success half, for the two weapons that have a case in the
    [switch]. *)
Lemma firePrimary_fires now shipPosition forward ship w :
  currentWeapon w <> laser ->
  coolingDown now (currentWeapon w) w = false ->
  energyCost (currentWeapon w) <= Aurelian.energy ship ->
  let '(ok, ship', w') := firePrimary now shipPosition forward ship w in
  ok = true /\
  Aurelian.energy ship' == Aurelian.energy ship - energyCost (currentWeapon w) /\
  lastFired w' (currentWeapon w) = Some now /\
  (currentWeapon w = railgun ->
     length (projectiles w') = S (length (projectiles w))
     /\ harpoons w' = harpoons w) /\
  (currentWeapon w = harpoon ->
     length (harpoons w') = S (length (harpoons w))
     /\ projectiles w' = projectiles w).
Proof.
  intros Hl Hc He. unfold firePrimary. rewrite Hc.
  apply ltb_ge in He. rewrite He.
  destruct (currentWeapon w) eqn:Hw; [|congruence|]; simpl.
  - repeat split; try reflexivity; try discriminate.
    rewrite length_app. simpl. lia.
  - repeat split; try reflexivity; try discriminate.
    rewrite length_app. simpl. lia.
Qed.

(** With the laser selected [firePrimary] passes both checks as soon as
    the ship has 15 energy, and falls through the [switch]. *)
Lemma firePrimary_laser now shipPosition forward ship w :
  currentWeapon w = laser -> lastFired w laser = None ->
  15 <= Aurelian.energy ship ->
  let '(ok, ship', w') := firePrimary now shipPosition forward ship w in
  ok = true /\
  Aurelian.energy ship' == Aurelian.energy ship - 15 /\
  projectiles w' = projectiles w /\ harpoons w' = harpoons w /\
  laserActive w' = laserActive w /\ activeBeam w' = activeBeam w.
Proof.
  intros Hw Hl He. unfold firePrimary, coolingDown. rewrite Hw, Hl. simpl.
  apply ltb_ge in He. rewrite He. simpl. repeat split; reflexivity.
Qed.

(** C6 (fails on the code).  On a new ship and weapon system, after the
    laser is selected, [firePrimary] reports success and takes 15 energy,
    and spawns nothing: no slug, no harpoon, no beam. *)
Theorem firePrimary_laser_spawns_nothing :
  let w := selectWeapon laser Aurelian.constructor constructor in
  let '(ok, ship', w') :=
    firePrimary 1000 origin ahead Aurelian.constructor w in
  currentWeapon w = laser /\
  ok = true /\
  Aurelian.energy ship' == 85 /\
  lastFired w' laser = Some 1000 /\
  projectiles w' = [] /\ harpoons w' = [] /\
  laserActive w' = false /\ activeBeam w' = false.
Proof. vm_compute. repeat split; discriminate. Qed.

End WeaponsSpec.

(** ** Harpoon tethers and dead enemies *)

Module HarpoonSpec.
Import JS JSFacts THREE Enemy Weapons Scenario.
Local Open Scope Q_scope.

Section Tether.

Variable normalize : Vector3 -> Vector3.

(** An attached harpoon that has not outlived its lifetime follows the
    mesh of its target and pulls it, whatever the array of live enemies
    holds: the guard [data.attachedTo && data.attachedTo.mesh] looks at the
    reference only, and neither the roster nor the scene is consulted. *)
Lemma updateHarpoon_follows_target dt now enemies shipPosition h world t m :
  attached h = true -> attachedTo h = Some t -> mesh t = Some m ->
  now - created h <= lifetime h ->
  updateHarpoon normalize dt now enemies shipPosition h world =
  (Some (set_position (poses world m) h),
   set_pose m
     (add (poses world m)
        (multiplyScalar (normalize (sub shipPosition (poses world m)))
           (100 * dt)))
     world).
Proof.
  intros Ha Ht Hm Hl. unfold updateHarpoon.
  apply ltb_ge in Hl. rewrite Hl, Ha, Ht, Hm. reflexivity.
Qed.

(** C7 (fails on the code).  Enemy 0 is the last of its wave.  In frame 2
    the harpoon attaches to it and the slug kills it; the wave manager drops
    it from the roster and takes its mesh out of the scene.  In frame 3,
    with no live enemy left, the harpoon is still in flight and attached to
    the dead enemy: it copies the position of the dead enemy's mesh and
    writes a pulled position back into it. *)
Theorem harpoon_follows_dead_enemy :
  let '(_, w, m, world, notes) := enemyKilled normalize in
  let '(_, w', _, world', _) := nextFrame normalize in
  (WaveManager.activeEnemies (fst lastEnemy) = [0%nat]
   /\ WaveManager.enemiesRemaining (fst lastEnemy) = 1%Z
   /\ health <$> objects (snd lastEnemy) !! 0%nat = Some 15) /\
  (notes = [WaveManager.EnemyKilled 0; WaveManager.WaveComplete 1]
   /\ WaveManager.activeEnemies m = []
   /\ WaveManager.getEnemies m world = []
   /\ elements (scene world) = []
   /\ health <$> objects world !! 0%nat = Some (-20)
   /\ attachedTo <$> harpoons w = [Some deadTarget]) /\
  (attached <$> harpoons w' = [true]
   /\ attachedTo <$> harpoons w' = [Some deadTarget]
   /\ position <$> harpoons w' = [poses world 0%nat]
   /\ poses world' 0%nat =
      add (poses world 0%nat)
        (multiplyScalar (normalize (sub origin (poses world 0%nat)))
           (100 * (16 * 0.001)))).
Proof. vm_compute. repeat split. Qed.

End Tether.

End HarpoonSpec.

(** ** Ship energy over a run of operations *)

Module EnergySpec.
Import JS JSFacts THREE HandTracker Game.
Import Aurelian.
Local Open Scope Q_scope.

Lemma energyCost_nonneg n : 0 <= Weapons.energyCost n.
Proof. destruct n; simpl; lra. Qed.

(** [processGesture] never adds energy when time runs forward, and leaves
    the constants alone. *)
Lemma processGesture_energy now gesture dt s :
  let s' := processGesture now gesture dt s in
  maxEnergy s' = maxEnergy s /\ energyRegen s' = energyRegen s /\
  (0 <= dt -> energy s' <= energy s) /\
  (0 <= dt -> 30 * dt <= 20 -> 0 <= energy s -> 0 <= energy s').
Proof.
  unfold processGesture, boost, barrelRoll, activateShield, animate.
  destruct gesture; simpl;
    repeat match goal with
    | |- context [if ?c then _ else _] =>
        match c with
        | ltb ?a ?b =>
            let H := fresh "Hc" in
            destruct (ltb a b) eqn:H;
            [apply ltb_lt in H | apply ltb_ge in H]
        | _ => destruct c
        end; simpl
    end;
    repeat split; try reflexivity; intros; lra.
Qed.

Lemma update_energy now deltaTime gesture s :
  let s' := update now deltaTime gesture s in
  capped s' /\
  (0 <= deltaTime -> 3 * deltaTime <= 2000 -> funded s -> funded s').
Proof.
  unfold update, capped, funded.
  destruct (processGesture_energy now gesture (deltaTime * 0.001) s)
    as (Hmax & Hregen & Hdown & Hpos).
  set (s1 := processGesture now gesture (deltaTime * 0.001) s) in *.
  clearbody s1.
  match goal with
  | |- context [if ?c then set_shield ?v ?s2 else ?s2] =>
      assert (Hsame : energy (if c then set_shield v s2 else s2) = energy s2
                      /\ maxEnergy (if c then set_shield v s2 else s2)
                         = maxEnergy s2
                      /\ energyRegen (if c then set_shield v s2 else s2)
                         = energyRegen s2)
        by (destruct c; repeat split; reflexivity);
      destruct Hsame as (-> & -> & ->)
  end.
  simpl.
  destruct (Math_min_spec (maxEnergy s1)
              (energy s1 + energyRegen s1 * (deltaTime * 0.001)))
    as [[Hm ->]|[Hm ->]].
  - split; [lra|]. intros Hd Hd3 (H0 & H1 & H2).
    assert (0 <= energy s1) by (apply Hpos; lra).
    assert (energy s1 <= energy s) by (apply Hdown; lra).
    rewrite Hmax, Hregen in *. repeat split; lra.
  - split; [lra|]. intros Hd Hd3 (H0 & H1 & H2).
    assert (0 <= energy s1) by (apply Hpos; lra).
    rewrite Hregen in *.
    assert (0 <= energyRegen s * (deltaTime * 0.001))
      by (apply Qmult_le_0_compat; lra).
    repeat split; lra.
Qed.

Lemma firePrimary_energy now shipPosition forward ship w :
  let ship' := snd (fst (Weapons.firePrimary now shipPosition forward ship w)) in
  maxEnergy ship' = maxEnergy ship /\ energyRegen ship' = energyRegen ship /\
  energy ship' <= energy ship /\ (0 <= energy ship -> 0 <= energy ship').
Proof.
  unfold Weapons.firePrimary.
  pose proof (energyCost_nonneg (Weapons.currentWeapon w)) as Hc.
  destruct (Weapons.coolingDown _ _ _); simpl; [repeat split; lra|].
  destruct (ltb _ _) eqn:He; [apply ltb_lt in He | apply ltb_ge in He]; simpl;
    repeat split; lra.
Qed.

Lemma step_capped op st :
  forwardInTime op -> capped (fst st) -> capped (fst (step op st)).
Proof.
  destruct st as [ship w]. unfold capped. intros Hf Hc.
  destruct op; simpl in *.
  - exact (proj1 (update_energy now deltaTime gesture ship)).
  - unfold animate. destruct (rollStart ship); [|exact Hc].
    destruct (ltb _ _); exact Hc.
  - unfold drainTick. destruct (bool_decide _); [|exact Hc].
    simpl. destruct (leb _ _); simpl; lra.
  - unfold shieldTimeout. destruct (bool_decide _); exact Hc.
  - destruct (firePrimary_energy now shipPosition forward ship w)
      as (Hm & _ & He & _).
    destruct (Weapons.firePrimary _ _ _ _ _) as [[ok ship1] w1].
    simpl in *. rewrite Hm. lra.
  - exact Hc.
  - exact Hc.
  - unfold forwardInTime in Hf. simpl in Hf.
    unfold Weapons.updateBeam.
    destruct (negb _ || negb _); [exact Hc|]. simpl.
    destruct (leb _ _); simpl; lra.
Qed.

Lemma step_funded op st :
  guarded op -> funded (fst st) -> funded (fst (step op st)).
Proof.
  destruct st as [ship w]. unfold funded. intros Hg Hf.
  destruct op; simpl in *; try contradiction.
  - destruct Hg as [Hg0 Hg3].
    exact (proj2 (update_energy now deltaTime gesture ship) Hg0 Hg3 Hf).
  - unfold animate. destruct (rollStart ship); [|exact Hf].
    destruct (ltb _ _); exact Hf.
  - unfold shieldTimeout. destruct (bool_decide _); exact Hf.
  - destruct (firePrimary_energy now shipPosition forward ship w)
      as (Hm & Hr & He & Hp).
    destruct (Weapons.firePrimary _ _ _ _ _) as [[ok ship1] w1].
    simpl in *. rewrite Hm, Hr. repeat split; try tauto; lra.
  - exact Hf.
  - exact Hf.
Qed.

Lemma run_capped ops st :
  Forall forwardInTime ops -> capped (fst st) -> capped (fst (run ops st)).
Proof.
  intros Hall. revert st. induction Hall as [|op ops Hop _ IH]; intros st Hc.
  - exact Hc.
  - apply IH. apply step_capped; assumption.
Qed.

Lemma run_funded ops st :
  Forall guarded ops -> funded (fst st) -> funded (fst (run ops st)).
Proof.
  intros Hall. revert st. induction Hall as [|op ops Hop _ IH]; intros st Hc.
  - exact Hc.
  - apply IH. apply step_funded; assumption.
Qed.

(** C3, as the code has it.  Over any run of operations in which time runs
    forward, energy stays at or below [maxEnergy]; over a run without shield
    drain ticks and beam updates whose frames last at most 2000/3 ms, it
    also stays at or above 0. *)
Theorem energy_bounds ops st :
  energy (fst st) <= maxEnergy (fst st) ->
  Forall forwardInTime ops ->
  energy (fst (run ops st)) <= maxEnergy (fst (run ops st)) /\
  (0 <= energy (fst st) -> 0 <= energyRegen (fst st) ->
   Forall guarded ops -> 0 <= energy (fst (run ops st))).
Proof.
  intros Hc Hf. split.
  - apply run_capped; assumption.
  - intros H0 Hr Hg. apply (run_funded ops st Hg). repeat split; assumption.
Qed.

Lemma energy_bounds_witness :
  (energy (fst start) <= maxEnergy (fst start) /\
   Forall forwardInTime boostRun /\
   0 <= energy (fst start) /\ 0 <= energyRegen (fst start) /\
   Forall guarded boostRun) /\
  energy (fst (run boostRun start)) <= maxEnergy (fst (run boostRun start)) /\
  0 <= energy (fst (run boostRun start)).
Proof.
  assert (Hc : energy (fst start) <= maxEnergy (fst start)) by (simpl; lra).
  assert (Hf : Forall forwardInTime boostRun)
    by (repeat constructor; unfold forwardInTime; simpl; lra).
  assert (H0 : 0 <= energy (fst start)) by (simpl; lra).
  assert (Hr : 0 <= energyRegen (fst start)) by (simpl; lra).
  assert (Hg : Forall guarded boostRun)
    by (repeat constructor; simpl; lra).
  split; [repeat split; assumption|].
  destruct (energy_bounds boostRun start Hc Hf) as [Hup Hlow].
  split; [exact Hup | exact (Hlow H0 Hr Hg)].
Defined.

(** C3 as stated fails.  With the shield up and frames of 100 ms, each
    frame regenerates 1 energy and each drain tick takes 5: after the 25th
    tick energy is -1.  With frames only, two boost frames of 3000 ms leave
    energy at -20. *)
Lemma energy_goes_negative :
  Forall forwardInTime (drainCycle 25) /\
  energy (fst (run (drainCycle 25) start)) == -1 /\
  ~ (0 <= energy (fst (run (drainCycle 25) start))) /\
  energy (fst (run [ShipUpdate 0 3000 BOOST; ShipUpdate 3000 3000 BOOST]
                 start)) == -20.
Proof.
  split.
  { unfold drainCycle. simpl.
    repeat constructor; unfold forwardInTime; simpl; lra. }
  assert (E : energy (fst (run (drainCycle 25) start)) == -1)
    by (vm_compute; reflexivity).
  split; [exact E|]. split; [rewrite E; lra|].
  vm_compute. reflexivity.
Qed.

End EnergySpec.

(** ** Wave manager *)

Module WaveManagerSpec.
Import JS JSFacts THREE Enemy WaveManager.
Local Open Scope Q_scope.

(** *** Wave configurations *)

Lemma normalLoop_length wave rolls cur n :
  length (normalLoop wave rolls cur n) = n.
Proof.
  revert cur. induction n as [|n IH]; intros cur; simpl;
    [reflexivity | rewrite IH; reflexivity].
Qed.

Lemma normalLoop_lookup wave rolls cur n i :
  (i < n)%nat ->
  normalLoop wave rolls cur n !! i = Some (normalType wave (rolls (cur + i)%nat)).
Proof.
  revert cur i. induction n as [|n IH]; intros cur i Hi; [lia|].
  destruct i as [|i]; simpl.
  - rewrite Nat.add_0_r. reflexivity.
  - rewrite IH by lia. do 3 f_equal. lia.
Qed.

Lemma configsFrom_length rolls cur i n :
  length (configsFrom rolls cur i n) = n.
Proof.
  revert cur i. induction n as [|n IH]; intros cur i; simpl; [reflexivity|].
  destruct (if (Z.rem i 5 =? 0)%Z then _ else _) as [enemies cur1].
  simpl. rewrite IH. reflexivity.
Qed.

(** The table built by the constructor has 20 entries, and no operation
    writes it. *)
Lemma constructor_configs rolls : length (waveConfigs (constructor rolls)) = 20%nat.
Proof. apply configsFrom_length. Qed.

Lemma startWave_configs rolls n m :
  waveConfigs (startWave rolls n m) = waveConfigs m.
Proof. reflexivity. Qed.

Lemma normalType_late wave roll :
  (7 <= wave)%Z -> normalType wave roll = lateType roll.
Proof.
  intros H. unfold normalType, lateType.
  destruct (Z.ltb_spec wave 3); [lia|].
  destruct (Z.ltb_spec wave 7); [lia|]. reflexivity.
Qed.

(** C8, as the code has it.  For a wave number [n] above 20 the table has
    no entry and [startWave n] builds the wave on the spot: [5 + n]
    enemies (not [3 + floor(0.8 n)]), each drawn with the bands of the late
    normal waves, and a spawn delay of 500 ms. *)
Theorem startWave_endless rolls n m :
  length (waveConfigs m) = 20%nat -> (20 < n)%Z ->
  let m' := startWave rolls (Some n) m in
  currentWave m' = n /\
  enemiesRemaining m' = (5 + n)%Z /\
  (exists queue,
     enemiesToSpawn m' = Some queue /\
     Z.of_nat (length queue) = (5 + n)%Z /\
     forall i, (i < length queue)%nat ->
       queue !! i = Some (lateType (rolls i))) /\
  spawnDelay m' = 500 /\
  timeSinceLastSpawn m' = 500.
Proof.
  intros Hlen Hn m'. subst m'. unfold startWave, configAt.
  destruct (Z.leb_spec 0 (n - 1)); [|lia].
  rewrite (proj2 (lookup_ge_None (waveConfigs m) (Z.to_nat (n - 1)))) by lia.
  simpl. rewrite normalLoop_length.
  split; [reflexivity|]. split; [lia|].
  split; [|split; reflexivity].
  eexists. split; [reflexivity|]. rewrite normalLoop_length.
  split; [lia|]. intros i Hi.
  rewrite normalLoop_lookup by exact Hi.
  rewrite normalType_late by lia. reflexivity.
Qed.

Lemma startWave_endless_witness :
  let m := constructor zeroRolls in
  let n := 21%Z in
  (length (waveConfigs m) = 20%nat /\ (20 < n)%Z) /\
  let m' := startWave zeroRolls (Some n) m in
  currentWave m' = n /\
  enemiesRemaining m' = (5 + n)%Z /\
  (exists queue,
     enemiesToSpawn m' = Some queue /\
     Z.of_nat (length queue) = (5 + n)%Z /\
     forall i, (i < length queue)%nat ->
       queue !! i = Some (lateType (zeroRolls i))) /\
  spawnDelay m' = 500 /\
  timeSinceLastSpawn m' = 500.
Proof.
  split; [split; [reflexivity | lia]|].
  apply (startWave_endless zeroRolls 21 (constructor zeroRolls));
    [reflexivity | lia].
Defined.

(** C8 as stated fails: wave 21 is started with 26 enemies, where the
    formula of the table, [3 + floor(21 * 0.8)], gives 19. *)
Lemma startWave_21_has_26_enemies :
  let m' := startWave zeroRolls (Some 21%Z) (constructor zeroRolls) in
  enemiesRemaining m' = 26%Z /\
  length <$> enemiesToSpawn m' = Some 26%nat /\
  (3 + Qfloor (inject_Z 21 * 0.8))%Z = 19%Z /\
  enemiesRemaining m' <> (3 + Qfloor (inject_Z 21 * 0.8))%Z.
Proof. vm_compute. repeat split; discriminate. Qed.

(** *** Wave completion *)

Lemma steady_refl st : steady st st.
Proof. unfold steady. repeat split; reflexivity || lia. Qed.

Lemma steady_trans a b c : steady a b -> steady b c -> steady a c.
Proof.
  unfold steady. intros (A1 & A2 & A3 & A4 & A5) (B1 & B2 & B3 & B4 & B5).
  repeat split; try congruence. lia.
Qed.

Lemma visit_steady i st : steady st (visit i st).
Proof.
  destruct st as [[m world] notes]. unfold visit.
  destruct (activeEnemies m !! i) as [k|]; [|apply steady_refl].
  destruct (objects world !! k) as [e|]; [|apply steady_refl].
  destruct (leb (health e) 0); [|apply steady_refl].
  unfold steady, completions. simpl. repeat split; try lia.
  rewrite List.filter_app. destruct (onEnemyKilled m); simpl;
    apply app_nil_r.
Qed.

Lemma sweep_steady i st : steady st (sweep i st).
Proof.
  revert st. induction i as [|i IH]; intros st; simpl.
  - apply steady_refl.
  - eapply steady_trans; [apply visit_steady | apply IH].
Qed.

(** The calls of [onWaveComplete] made by one [update]: one call when the
    queue is empty and no enemy remains at the end of the update (and a
    handler is set), none otherwise. *)
Lemma update_completions deltaTime m world :
  let '(m', _, notes) := update deltaTime m world in
  completions notes =
  if isWaveComplete m' && onWaveComplete m'
  then [WaveComplete (currentWave m')] else [].
Proof.
  unfold update. destruct (spawnStep deltaTime m world) as [m1 world1].
  pose proof (sweep_steady (length (activeEnemies m1)) (m1, world1, []))
    as (_ & _ & _ & _ & Hc).
  destruct (sweep _ _) as [[m2 world2] notes]. simpl in Hc.
  unfold completions in *. rewrite List.filter_app, Hc.
  destruct (isWaveComplete m2 && onWaveComplete m2); reflexivity.
Qed.

Lemma spawnStep_complete deltaTime m world :
  isWaveComplete m = true -> spawnStep deltaTime m world = (m, world).
Proof.
  unfold isWaveComplete, spawnStep. intros H.
  apply andb_true_iff in H as [_ H].
  destruct (enemiesToSpawn m) as [[|ty rest]|]; try reflexivity.
  apply bool_decide_eq_true in H. discriminate.
Qed.

(** Once complete, the wave stays complete under [update]. *)
Lemma update_stays_complete deltaTime m world :
  isWaveComplete m = true ->
  let '(m', _, _) := update deltaTime m world in
  isWaveComplete m' = true /\ currentWave m' = currentWave m /\
  onWaveComplete m' = onWaveComplete m.
Proof.
  intros H. unfold update. rewrite (spawnStep_complete _ _ _ H).
  pose proof (sweep_steady (length (activeEnemies m)) (m, world, []))
    as (Hw & Hh & Hq & Hr & _).
  destruct (sweep _ _) as [[m2 world2] notes]. simpl in *.
  split; [|split; assumption].
  unfold isWaveComplete in *. rewrite Hq.
  apply andb_true_iff in H as [H1 H2]. apply andb_true_iff. split; [|exact H2].
  apply Z.leb_le in H1. apply Z.leb_le. lia.
Qed.

(** C1, as the code has it.  From a state in which the wave is complete
    and a handler is set, every [update] calls [onWaveComplete] once with
    the current wave, call after call, for as long as no [startWave]
    intervenes.  In any state, an [update] makes the call exactly when the
    queue is empty and no enemy remains at its end, and not otherwise. *)
Theorem wave_complete_called_on_every_update deltaTimes m world :
  isWaveComplete m = true -> onWaveComplete m = true ->
  (let '(m', _, calls) := updates deltaTimes m world in
   isWaveComplete m' = true /\
   length calls = length deltaTimes /\
   Forall (fun notes => completions notes = [WaveComplete (currentWave m)])
     calls) /\
  (forall deltaTime m0 world0,
     let '(m1, _, notes) := update deltaTime m0 world0 in
     completions notes =
     if isWaveComplete m1 && onWaveComplete m1
     then [WaveComplete (currentWave m1)] else []).
Proof.
  intros Hc Hh. split; [|intros; apply update_completions].
  revert m world Hc Hh.
  induction deltaTimes as [|deltaTime rest IH]; intros m world Hc Hh; simpl.
  - repeat split; [exact Hc | constructor].
  - pose proof (update_completions deltaTime m world) as Hn.
    pose proof (update_stays_complete deltaTime m world Hc) as Hs.
    destruct (update deltaTime m world) as [[m1 world1] notes].
    destruct Hs as (Hc1 & Hw1 & Hh1).
    rewrite Hc1, Hh1, Hh, Hw1 in Hn. simpl in Hn.
    specialize (IH m1 world1 Hc1 (eq_trans Hh1 Hh)).
    destruct (updates rest m1 world1) as [[m2 world2] later].
    destruct IH as (IH1 & IH2 & IH3). rewrite Hw1 in IH3.
    split; [exact IH1|]. split; [simpl; lia|].
    constructor; assumption.
Qed.

Lemma wave_complete_called_on_every_update_witness :
  let deltaTimes := [16; 16; 16] in
  let m := newManager in
  (isWaveComplete m = true /\ onWaveComplete m = true) /\
  (let '(m', _, calls) := updates deltaTimes m emptyWorld in
   isWaveComplete m' = true /\
   length calls = length deltaTimes /\
   Forall (fun notes => completions notes = [WaveComplete (currentWave m)])
     calls) /\
  (forall deltaTime m0 world0,
     let '(m1, _, notes) := update deltaTime m0 world0 in
     completions notes =
     if isWaveComplete m1 && onWaveComplete m1
     then [WaveComplete (currentWave m1)] else []).
Proof.
  split; [split; reflexivity|].
  apply (wave_complete_called_on_every_update [16; 16; 16] newManager
           emptyWorld); reflexivity.
Defined.

(** C1 as stated fails.  No call is made while wave 1 spawns.  In the
    frame that removes the three dead enemies [onWaveComplete(1)] is called,
    and it is called again in each of the next two frames, with no
    [startWave] in between. *)
Lemma wave_complete_called_three_times :
  let '(m, world, spawnCalls) := spawned in
  let '(_, _, calls) := updates [16; 16; 16] m (killAll world) in
  activeEnemies m = [0; 1; 2]%nat /\
  enemiesToSpawn m = Some [] /\
  enemiesRemaining m = 3%Z /\
  concat spawnCalls = [] /\
  calls = [ [EnemyKilled 2; EnemyKilled 1; EnemyKilled 0; WaveComplete 1];
            [WaveComplete 1];
            [WaveComplete 1] ] /\
  length (completions (concat calls)) = 3%nat.
Proof. vm_compute. repeat split. Qed.

(** C10.  In the state the constructor builds (wave 0, no enemy
    remaining, no spawn queue) the wave counts as complete, and one
    [update], with the handler the game registers, calls
    [onWaveComplete(0)] and changes nothing. *)
Theorem initial_update_reports_wave_0 rolls deltaTime world :
  let m := set_callbacks true true (constructor rolls) in
  currentWave (constructor rolls) = 0%Z /\
  enemiesRemaining (constructor rolls) = 0%Z /\
  enemiesToSpawn (constructor rolls) = None /\
  isWaveComplete (constructor rolls) = true /\
  isWaveComplete m = true /\
  update deltaTime m world = (m, world, [WaveComplete 0]).
Proof. repeat split. Qed.

End WaveManagerSpec.

(** * Further properties *)

(** ** Wave tables, spawning and the roster *)

Module WaveFacts.
Import JS JSFacts THREE Enemy WaveManager Upkeep.
Local Open Scope Q_scope.

Lemma swap_length i j l : length (swap i j l) = length l.
Proof.
  unfold swap. destruct (l !! i), (l !! j); try reflexivity.
  rewrite !length_insert. reflexivity.
Qed.

Lemma swap_perm i j l : swap i j l ≡ₚ l.
Proof.
  unfold swap. destruct (l !! i) as [a|] eqn:Hi; [|reflexivity].
  destruct (l !! j) as [b|] eqn:Hj; [|reflexivity].
  apply Permutation_insert_swap; assumption.
Qed.

Lemma shuffleFrom_perm rolls cur i l :
  fst (shuffleFrom rolls cur i l) ≡ₚ l.
Proof.
  revert cur l. induction i as [|i IH]; intros cur l; simpl; [reflexivity|].
  rewrite IH. apply swap_perm.
Qed.

(** The three blocks of a boss wave fill the count. *)
Lemma boss_blocks count :
  (0 <= count)%Z ->
  let v := Qfloor (inject_Z count * 0.5) in
  let h := Qfloor (inject_Z count * 0.3) in
  (0 <= v /\ 0 <= h /\ v + h <= count)%Z.
Proof.
  intros Hc v h.
  assert (Hq : 0 <= inject_Z count) by (unfold Qle; simpl; lia).
  assert (Hv0 : (Qfloor 0 <= v)%Z) by (apply Qfloor_resp_le; lra).
  assert (Hh0 : (Qfloor 0 <= h)%Z) by (apply Qfloor_resp_le; lra).
  change (Qfloor 0) with 0%Z in *.
  split; [exact Hv0|]. split; [exact Hh0|].
  pose proof (Qfloor_le (inject_Z count * 0.5)) as Hv.
  pose proof (Qfloor_le (inject_Z count * 0.3)) as Hh.
  fold v in Hv. fold h in Hh.
  rewrite Zle_Qle, inject_Z_plus. lra.
Qed.

(** X1.  Whatever the rolls drawn from [Math.random()], the enemies of a
    boss wave of [count] are a rearrangement of [floor(count/2)] vanguards,
    [floor(0.3 count)] hunters and cowards for the rest: the shuffle neither
    loses nor duplicates an enemy, and the wave has [count] enemies. *)
Theorem boss_wave_composition rolls cur wave count :
  fair rolls -> (0 <= count)%Z ->
  let v := Qfloor (inject_Z count * 0.5) in
  let h := Qfloor (inject_Z count * 0.3) in
  let enemies := fst (generateBossWaveEnemies rolls cur wave count) in
  enemies ≡ₚ replicate (Z.to_nat v) VANGUARD
             ++ replicate (Z.to_nat h) HUNTER
             ++ replicate (Z.to_nat (count - v - h)) COWARD /\
  Z.of_nat (length enemies) = count /\
  Z.of_nat (length (filter (fun ty => ty = VANGUARD) enemies)) = v /\
  Z.of_nat (length (filter (fun ty => ty = HUNTER) enemies)) = h.
Proof.
  intros _ Hc v h enemies.
  destruct (boss_blocks count Hc) as (Hv & Hh & Hvh). fold v h in Hv, Hh, Hvh.
  assert (P : enemies ≡ₚ replicate (Z.to_nat v) VANGUARD
             ++ replicate (Z.to_nat h) HUNTER
             ++ replicate (Z.to_nat (count - v - h)) COWARD)
    by apply shuffleFrom_perm.
  split; [exact P|]. rewrite !P.
  rewrite !filter_app, !length_app, !length_replicate.
  assert (F : forall (a b : EnemyType) n,
            length (filter (fun ty => ty = a) (replicate n b))
            = if decide (b = a) then n else 0%nat).
  { intros a b n. induction n as [|n IH]; simpl; [destruct (decide _); reflexivity|].
    rewrite filter_cons. destruct (decide (b = a)); simpl; rewrite IH; reflexivity. }
  rewrite !F. simpl. split; [lia|]. split; lia.
Qed.

Lemma boss_wave_composition_witness :
  let rolls := zeroRolls in
  let count := 7%Z in
  (fair rolls /\ (0 <= count)%Z) /\
  let v := Qfloor (inject_Z count * 0.5) in
  let h := Qfloor (inject_Z count * 0.3) in
  let enemies := fst (generateBossWaveEnemies rolls 0 5 count) in
  enemies ≡ₚ replicate (Z.to_nat v) VANGUARD
             ++ replicate (Z.to_nat h) HUNTER
             ++ replicate (Z.to_nat (count - v - h)) COWARD /\
  Z.of_nat (length enemies) = count /\
  Z.of_nat (length (filter (fun ty => ty = VANGUARD) enemies)) = v /\
  Z.of_nat (length (filter (fun ty => ty = HUNTER) enemies)) = h.
Proof.
  assert (Hf : fair zeroRolls) by (intros k; unfold zeroRolls; lra).
  split; [split; [exact Hf | lia]|].
  apply (boss_wave_composition zeroRolls 0 5 7 Hf). lia.
Defined.

Lemma generateBoss_length rolls cur wave count :
  (0 <= count)%Z ->
  length (fst (generateBossWaveEnemies rolls cur wave count)) = Z.to_nat count.
Proof.
  intros Hc. destruct (boss_blocks count Hc) as (Hv & Hh & Hvh).
  unfold generateBossWaveEnemies. rewrite shuffleFrom_perm.
  rewrite !length_app, !length_replicate. lia.
Qed.

Lemma baseCount_nonneg i :
  (0 <= i)%Z -> (0 <= 3 + Qfloor (inject_Z i * 0.8))%Z.
Proof.
  intros Hi.
  assert (Hq : 0 <= inject_Z i) by (unfold Qle; simpl; lia).
  assert (H : (Qfloor 0 <= Qfloor (inject_Z i * 0.8))%Z)
    by (apply Qfloor_resp_le; lra).
  change (Qfloor 0) with 0%Z in H. lia.
Qed.

Lemma configsFrom_S rolls cur i n :
  configsFrom rolls cur i (S n) =
  let bossWave := (Z.rem i 5 =? 0)%Z in
  let baseCount := (3 + Qfloor (inject_Z i * 0.8))%Z in
  let '(enemies, cur1) :=
    if bossWave
    then generateBossWaveEnemies rolls cur i baseCount
    else generateNormalWaveEnemies rolls cur i baseCount in
  {| cfg_wave := i;
     cfg_enemies := enemies;
     cfg_spawnDelay := Math_max 500 (2000 - inject_Z i * 75);
     cfg_bossWave := bossWave |}
  :: configsFrom rolls cur1 (i + 1) n.
Proof. reflexivity. Qed.

(** Entry [k] of the list [configsFrom] builds from wave [i] on. *)
Lemma configsFrom_lookup rolls cur i n k :
  (0 <= i)%Z -> (k < n)%nat ->
  exists c,
    configsFrom rolls cur i n !! k = Some c /\
    cfg_wave c = (i + Z.of_nat k)%Z /\
    Z.of_nat (length (cfg_enemies c))
    = (3 + Qfloor (inject_Z (i + Z.of_nat k) * 0.8))%Z /\
    cfg_spawnDelay c = Math_max 500 (2000 - inject_Z (i + Z.of_nat k) * 75) /\
    cfg_bossWave c = (Z.rem (i + Z.of_nat k) 5 =? 0)%Z.
Proof.
  revert cur i k. induction n as [|n IH]; intros cur i k Hi Hk; [lia|].
  pose proof (baseCount_nonneg i Hi) as Hb.
  rewrite configsFrom_S. cbv zeta.
  pose proof (generateBoss_length rolls cur i _ Hb) as Hboss.
  assert (Hnormal :
    length (fst (generateNormalWaveEnemies rolls cur i
                   (3 + Qfloor (inject_Z i * 0.8))))
    = Z.to_nat (3 + Qfloor (inject_Z i * 0.8)))
    by apply WaveManagerSpec.normalLoop_length.
  destruct (if (Z.rem i 5 =? 0)%Z then _ else _) as [enemies cur1] eqn:Hgen.
  destruct k as [|k].
  - replace (i + Z.of_nat 0)%Z with i by lia.
    eexists. split; [reflexivity|].
    split; [reflexivity|]. split; [|split; reflexivity].
    cbn [cfg_enemies].
    destruct (Z.rem i 5 =? 0)%Z; rewrite Hgen in *; cbn [fst] in *; lia.
  - destruct (IH cur1 (i + 1)%Z k) as (c & Hc & H1 & H2 & H3 & H4); [lia|lia|].
    replace (i + 1 + Z.of_nat k)%Z with (i + Z.of_nat (S k))%Z in * by lia.
    exists c. split; [exact Hc|]. repeat split; assumption.
Qed.

(** X2.  For a wave number [n] from 1 to 20, [startWave n] on a manager
    built by the constructor loads the table entry of wave [n], whatever
    the rolls the table was drawn with: [3 + floor(0.8 n)] enemies remain
    and wait in the queue, the spawn delay is [max(500, 2000 - 75 n)]
    (between 500 and 1925 ms), and the spawn clock is set to the delay. *)
Theorem startWave_table rolls rolls' n m :
  waveConfigs m = generateWaveConfigs rolls -> (1 <= n <= 20)%Z ->
  let m' := startWave rolls' (Some n) m in
  currentWave m' = n /\
  enemiesRemaining m' = (3 + Qfloor (inject_Z n * 0.8))%Z /\
  Z.of_nat (length (queue m')) = (3 + Qfloor (inject_Z n * 0.8))%Z /\
  spawnDelay m' = Math_max 500 (2000 - inject_Z n * 75) /\
  timeSinceLastSpawn m' = spawnDelay m' /\
  500 <= spawnDelay m' /\ spawnDelay m' <= 1925 /\
  configAt m (n - 1) <> None.
Proof.
  intros Hm Hn m'. subst m'. unfold startWave, configAt.
  destruct (Z.leb_spec 0 (n - 1)); [|lia].
  rewrite Hm. unfold generateWaveConfigs.
  destruct (configsFrom_lookup rolls 0 1 20 (Z.to_nat (n - 1)))
    as (c & Hc & H1 & H2 & H3 & H4); [lia|lia|].
  replace (1 + Z.of_nat (Z.to_nat (n - 1)))%Z with n in * by lia.
  rewrite Hc. unfold queue. simpl.
  split; [reflexivity|]. split; [exact H2|]. split; [exact H2|].
  split; [exact H3|]. split; [reflexivity|].
  rewrite H3.
  assert (Hq : 1 <= inject_Z n) by (unfold Qle; simpl; lia).
  destruct (Math_max_spec 500 (2000 - inject_Z n * 75)) as [[? ->]|[? ->]];
    repeat split; try lra; discriminate.
Qed.

Lemma startWave_table_witness :
  let m := constructor zeroRolls in
  let n := 5%Z in
  (waveConfigs m = generateWaveConfigs zeroRolls /\ (1 <= n <= 20)%Z) /\
  let m' := startWave zeroRolls (Some n) m in
  currentWave m' = n /\
  enemiesRemaining m' = (3 + Qfloor (inject_Z n * 0.8))%Z /\
  Z.of_nat (length (queue m')) = (3 + Qfloor (inject_Z n * 0.8))%Z /\
  spawnDelay m' = Math_max 500 (2000 - inject_Z n * 75) /\
  timeSinceLastSpawn m' = spawnDelay m' /\
  500 <= spawnDelay m' /\ spawnDelay m' <= 1925 /\
  configAt m (n - 1) <> None.
Proof.
  split; [split; [reflexivity | lia]|].
  apply (startWave_table zeroRolls zeroRolls 5 (constructor zeroRolls));
    [reflexivity | lia].
Defined.

(** X3.  When the spawn clock has reached the delay, as [startWave] leaves
    it, an update that adds no negative time spawns the head of the queue
    at once: a new enemy of that type at full health joins the end of the
    roster and the scene, and the clock restarts at 0.  While the clock plus
    the frame time stays below the delay, nothing is spawned. *)
Theorem spawn_pacing deltaTime m world ty rest :
  enemiesToSpawn m = Some (ty :: rest) -> 0 <= deltaTime ->
  (spawnDelay m <= timeSinceLastSpawn m ->
   let '(m1, world1) := spawnStep deltaTime m world in
   enemiesToSpawn m1 = Some rest /\
   activeEnemies m1 = activeEnemies m ++ [nextEnemy world] /\
   objects world1 !! nextEnemy world = Some (Enemy.create ty) /\
   nextEnemy world ∈ scene world1 /\
   timeSinceLastSpawn m1 = 0 /\
   enemiesRemaining m1 = enemiesRemaining m) /\
  (timeSinceLastSpawn m + deltaTime < spawnDelay m ->
   let '(m1, world1) := spawnStep deltaTime m world in
   enemiesToSpawn m1 = enemiesToSpawn m /\
   activeEnemies m1 = activeEnemies m /\
   world1 = world /\
   timeSinceLastSpawn m1 = timeSinceLastSpawn m + deltaTime).
Proof.
  intros Hq Hd. unfold spawnStep. rewrite Hq. split; intros Ht.
  - assert (H : leb (spawnDelay m) (timeSinceLastSpawn m + deltaTime) = true)
      by (apply leb_le; lra).
    rewrite H. simpl.
    split; [reflexivity|]. split; [reflexivity|].
    split; [apply lookup_insert_eq|]. split; [set_solver|].
    split; reflexivity.
  - assert (H : leb (spawnDelay m) (timeSinceLastSpawn m + deltaTime) = false)
      by (apply leb_gt; lra).
    rewrite H. repeat split.
Qed.

Lemma spawn_pacing_witness :
  let m := wave1 in
  let deltaTime := 16 in
  let ty := COWARD in
  let rest := [COWARD; COWARD] in
  (enemiesToSpawn m = Some (ty :: rest) /\ 0 <= deltaTime) /\
  (spawnDelay m <= timeSinceLastSpawn m ->
   let '(m1, world1) := spawnStep deltaTime m emptyWorld in
   enemiesToSpawn m1 = Some rest /\
   activeEnemies m1 = activeEnemies m ++ [nextEnemy emptyWorld] /\
   objects world1 !! nextEnemy emptyWorld = Some (Enemy.create ty) /\
   nextEnemy emptyWorld ∈ scene world1 /\
   timeSinceLastSpawn m1 = 0 /\
   enemiesRemaining m1 = enemiesRemaining m) /\
  (timeSinceLastSpawn m + deltaTime < spawnDelay m ->
   let '(m1, world1) := spawnStep deltaTime m emptyWorld in
   enemiesToSpawn m1 = enemiesToSpawn m /\
   activeEnemies m1 = activeEnemies m /\
   world1 = emptyWorld /\
   timeSinceLastSpawn m1 = timeSinceLastSpawn m + deltaTime).
Proof.
  split; [split; [reflexivity | lra]|].
  apply (spawn_pacing 16 wave1 emptyWorld COWARD [COWARD; COWARD]);
    [reflexivity | lra].
Defined.

(** One step of the enemy loop either changes nothing or removes the dead
    enemy at its index. *)
Lemma visit_cases i m world notes :
  visit i (m, world, notes) = (m, world, notes) /\
  (forall k, activeEnemies m !! i = Some k -> alive world k = true) \/
  exists k,
    activeEnemies m !! i = Some k /\ alive world k = false /\
    visit i (m, world, notes) =
    (set_killed (delete i (activeEnemies m)) m,
     set_scene (scene world ∖ {[k]}) world,
     notes ++ (if onEnemyKilled m then [EnemyKilled k] else [])).
Proof.
  unfold visit, alive.
  destruct (activeEnemies m !! i) as [k|] eqn:Hi; [|left; split; [reflexivity | discriminate]].
  destruct (objects world !! k) as [e|] eqn:Hk.
  - destruct (leb (health e) 0) eqn:Hd.
    + right. exists k. rewrite Hk, Hd. repeat split.
    + left. split; [reflexivity|]. intros k' [= <-]. rewrite Hk, Hd. reflexivity.
  - left. split; [reflexivity|]. intros k' [= <-]. rewrite Hk. reflexivity.
Qed.

(** What the enemy loop keeps in balance. *)
Lemma sweep_ledger i m world notes :
  let '(m', world', notes') := sweep i (m, world, notes) in
  enemiesToSpawn m' = enemiesToSpawn m /\
  onEnemyKilled m' = onEnemyKilled m /\
  (enemiesRemaining m' - Z.of_nat (length (activeEnemies m'))
   = enemiesRemaining m - Z.of_nat (length (activeEnemies m)))%Z /\
  (enemiesRemaining m' + totalKills m' = enemiesRemaining m + totalKills m)%Z /\
  (enemiesRemaining m' <= enemiesRemaining m)%Z /\
  objects world' = objects world /\
  (onEnemyKilled m = true ->
   (Z.of_nat (length (kills notes')) + enemiesRemaining m'
    = Z.of_nat (length (kills notes)) + enemiesRemaining m)%Z).
Proof.
  revert m world notes. induction i as [|i IH]; intros m world notes.
  - simpl. repeat split; reflexivity || lia.
  - cbn [sweep].
    destruct (visit_cases i m world notes) as [[-> _]|(k & Hi & _ & ->)];
      [apply IH|].
    specialize (IH (set_killed (delete i (activeEnemies m)) m)
                  (set_scene (scene world ∖ {[k]}) world)
                  (notes ++ (if onEnemyKilled m then [EnemyKilled k] else []))).
    destruct (sweep i _) as [[m' world'] notes'].
    destruct IH as (H1 & H2 & H3 & H4 & H5 & H6 & H7). simpl in *.
    pose proof (length_delete (activeEnemies m) i (mk_is_Some _ _ Hi)) as Hlen.
    assert (Hpos : (0 < length (activeEnemies m))%nat)
      by (apply lookup_lt_Some in Hi; lia).
    split; [exact H1|]. split; [exact H2|]. split; [lia|].
    split; [lia|]. split; [lia|]. split; [exact H6|].
    intros Hh. specialize (H7 Hh). rewrite Hh in H7.
    unfold kills in *. rewrite omap_app, length_app in H7. simpl in H7. lia.
Qed.

(** X4.  If the counter of remaining enemies equals the queue plus the
    roster, an update keeps it so, and then the wave is complete exactly
    when both the queue and the roster are empty.  [startWave] establishes
    the balance when it is called on an empty roster. *)
Theorem remaining_counts_queue_and_roster deltaTime m world :
  balanced m ->
  let '(m', _, _) := update deltaTime m world in
  balanced m' /\
  (isWaveComplete m' = true <-> queue m' = [] /\ activeEnemies m' = []) /\
  (forall rolls n m0, activeEnemies m0 = [] -> balanced (startWave rolls n m0)).
Proof.
  intros Hb. unfold update.
  assert (Hs : balanced (fst (spawnStep deltaTime m world))).
  { unfold spawnStep.
    destruct (enemiesToSpawn m) as [[|ty rest]|] eqn:Hq;
      [exact Hb | | exact Hb].
    unfold balanced, queue in *. rewrite Hq in Hb. simpl in Hb.
    destruct (leb _ _); simpl; rewrite ?Hq, ?length_app; simpl; lia. }
  destruct (spawnStep deltaTime m world) as [m1 world1]. simpl in Hs.
  pose proof (sweep_ledger (length (activeEnemies m1)) m1 world1 []) as L.
  destruct (sweep _ _) as [[m2 world2] notes].
  destruct L as (H1 & _ & H3 & _).
  assert (Hb2 : balanced m2).
  { unfold balanced, queue in *. rewrite H1. lia. }
  split; [exact Hb2|]. split.
  - unfold isWaveComplete, balanced, queue in *.
    destruct (enemiesToSpawn m2) as [q|]; simpl in *.
    + rewrite andb_true_iff, Z.leb_le, bool_decide_eq_true.
      split.
      * intros [Hr Hq]. destruct q; [|discriminate].
        split; [reflexivity|]. destruct (activeEnemies m2); [reflexivity|].
        simpl in *. lia.
      * intros [-> Hr]. rewrite Hr in Hb2. simpl in Hb2. split; [lia | reflexivity].
    + rewrite andb_true_r, Z.leb_le. split.
      * intros Hr. split; [reflexivity|].
        destruct (activeEnemies m2); [reflexivity | simpl in *; lia].
      * intros [_ Hr]. rewrite Hr in Hb2. simpl in Hb2. lia.
  - intros rolls n m0 Hr. unfold balanced, queue, startWave. simpl.
    rewrite Hr. simpl. lia.
Qed.

Lemma remaining_counts_queue_and_roster_witness :
  let m := wave1 in
  balanced m /\
  let '(m', _, _) := update 16 m emptyWorld in
  balanced m' /\
  (isWaveComplete m' = true <-> queue m' = [] /\ activeEnemies m' = []) /\
  (forall rolls n m0, activeEnemies m0 = [] -> balanced (startWave rolls n m0)).
Proof.
  assert (Hb : balanced wave1) by reflexivity.
  split; [exact Hb|].
  exact (remaining_counts_queue_and_roster 16 wave1 emptyWorld Hb).
Defined.

(** X5.  An update moves enemies from the remaining count to the kill
    count one for one: their sum does not change, the kill count never
    drops, and with a handler set [onEnemyKilled] is called once for each
    kill counted. *)
Theorem kills_are_counted_once deltaTime m world :
  let '(m', _, notes) := update deltaTime m world in
  (enemiesRemaining m' + totalKills m' = enemiesRemaining m + totalKills m)%Z /\
  (totalKills m <= totalKills m')%Z /\
  (if onEnemyKilled m
   then Z.of_nat (length (kills notes)) = (totalKills m' - totalKills m)%Z
   else kills notes = []).
Proof.
  unfold update.
  assert (Hs : let m1 := fst (spawnStep deltaTime m world) in
               enemiesRemaining m1 = enemiesRemaining m /\
               totalKills m1 = totalKills m /\
               onEnemyKilled m1 = onEnemyKilled m).
  { unfold spawnStep. destruct (enemiesToSpawn m) as [[|ty rest]|];
      try (repeat split; reflexivity).
    destruct (leb _ _); repeat split; reflexivity. }
  destruct (spawnStep deltaTime m world) as [m1 world1].
  destruct Hs as (Hr & Ht & Hh). simpl in Hr, Ht, Hh.
  pose proof (sweep_ledger (length (activeEnemies m1)) m1 world1 []) as L.
  assert (Hoff : onEnemyKilled m1 = false ->
            kills (snd (sweep (length (activeEnemies m1)) (m1, world1, [])))
            = []).
  { intros Hoff.
    assert (G : forall i m0 w0 n0, onEnemyKilled m0 = false -> kills n0 = [] ->
              kills (snd (sweep i (m0, w0, n0))) = []).
    { induction i as [|i IH]; intros m0 w0 n0 H0 Hn; [exact Hn|].
      cbn [sweep].
      destruct (visit_cases i m0 w0 n0) as [[-> _]|(k & _ & _ & ->)];
        [apply IH; assumption|].
      apply IH; [exact H0|]. rewrite H0. unfold kills in *.
      rewrite omap_app, Hn. reflexivity. }
    apply G; [exact Hoff | reflexivity]. }
  destruct (sweep _ _) as [[m2 world2] notes].
  destruct L as (_ & L2 & _ & L4 & L5 & _ & L7). simpl in Hoff.
  assert (K : kills (notes ++
                (if isWaveComplete m2 && onWaveComplete m2
                 then [WaveComplete (currentWave m2)] else []))
              = kills notes).
  { unfold kills. rewrite omap_app.
    destruct (isWaveComplete m2 && onWaveComplete m2); simpl;
      apply app_nil_r. }
  rewrite K. split; [lia|]. split; [lia|].
  rewrite <- Hh. destruct (onEnemyKilled m1) eqn:E.
  - specialize (L7 eq_refl). simpl in L7. lia.
  - apply Hoff. reflexivity.
Qed.

Lemma alive_same_objects w1 w2 k :
  objects w1 = objects w2 -> alive w1 k = alive w2 k.
Proof. unfold alive. intros ->. reflexivity. Qed.

Lemma sweep_filter i m world notes :
  let '(m', world', _) := sweep i (m, world, notes) in
  activeEnemies m' =
  List.filter (alive world) (take i (activeEnemies m))
  ++ drop i (activeEnemies m).
Proof.
  revert m world notes. induction i as [|i IH]; intros m world notes.
  - simpl. rewrite drop_0. reflexivity.
  - cbn [sweep].
    destruct (visit_cases i m world notes) as [[-> Ha]|(k & Hi & Hd & ->)].
    + specialize (IH m world notes).
      destruct (sweep i (m, world, notes)) as [[m' world'] notes'].
      rewrite IH.
      destruct (activeEnemies m !! i) as [k|] eqn:Hi.
      * rewrite (take_S_r _ _ _ Hi), List.filter_app. simpl.
        rewrite (Ha k eq_refl), <- app_assoc. simpl.
        rewrite (drop_S _ _ _ Hi). reflexivity.
      * apply lookup_ge_None in Hi.
        rewrite !take_ge, !drop_ge by lia. reflexivity.
    + specialize (IH (set_killed (delete i (activeEnemies m)) m)
                    (set_scene (scene world ∖ {[k]}) world)
                    (notes ++ (if onEnemyKilled m then [EnemyKilled k] else []))).
      destruct (sweep i _) as [[m' world'] notes'].
      rewrite IH. simpl.
      assert (Hlt : (i < length (activeEnemies m))%nat)
        by (apply lookup_lt_Some in Hi; exact Hi).
      assert (Hlen : length (take i (activeEnemies m)) = i)
        by (rewrite length_take; lia).
      rewrite delete_take_drop.
      rewrite take_app_length' by (symmetry; exact Hlen).
      rewrite drop_app_length' by (symmetry; exact Hlen).
      rewrite (take_S_r _ _ _ Hi), List.filter_app. simpl.
      rewrite Hd, app_nil_r. reflexivity.
Qed.

(** X6.  The enemy loop of an update removes from the roster exactly the
    enemies whose health is at or below 0 and keeps the others in their
    order: every enemy still in the roster after the update has health
    above 0. *)
Theorem update_removes_exactly_the_dead deltaTime m world :
  let '(m1, world1) := spawnStep deltaTime m world in
  let '(m2, world2, _) := update deltaTime m world in
  activeEnemies m2 = List.filter (alive world1) (activeEnemies m1) /\
  Forall (fun k => alive world2 k = true) (activeEnemies m2).
Proof.
  unfold update. destruct (spawnStep deltaTime m world) as [m1 world1].
  pose proof (sweep_filter (length (activeEnemies m1)) m1 world1 []) as F.
  pose proof (sweep_ledger (length (activeEnemies m1)) m1 world1 []) as L.
  destruct (sweep _ _) as [[m2 world2] notes].
  destruct L as (_ & _ & _ & _ & _ & Ho & _).
  rewrite take_ge, drop_ge, app_nil_r in F by lia.
  split; [exact F|].
  rewrite F. apply Forall_forall. intros k Hk.
  apply list_elem_of_In in Hk. apply List.filter_In in Hk as [_ Hk].
  rewrite (alive_same_objects world2 world1 k Ho). exact Hk.
Qed.

(** X7.  [cleanup] empties the roster and writes neither the counter of
    remaining enemies nor the queue.  Called in a wave whose queue is
    empty and that still has enemies remaining, it leaves a wave that no
    update changes or completes: only a new [startWave] gets out of it. *)
Theorem cleanup_strands_the_wave deltaTimes m world :
  queue m = [] -> (0 < enemiesRemaining m)%Z ->
  let '(m0, world0) := waveCleanup m world in
  activeEnemies m0 = [] /\
  enemiesRemaining m0 = enemiesRemaining m /\
  isWaveComplete m0 = false /\
  updates deltaTimes m0 world0
  = (m0, world0, replicate (length deltaTimes) []).
Proof.
  intros Hq Hr. unfold waveCleanup.
  set (m0 := set_spawn _ _ _ m). set (world0 := set_scene _ world).
  assert (Hc : isWaveComplete m0 = false).
  { unfold isWaveComplete. simpl.
    destruct (Z.leb_spec (enemiesRemaining m) 0); [lia | reflexivity]. }
  assert (Hu : forall deltaTime, update deltaTime m0 world0 = (m0, world0, [])).
  { intros deltaTime. unfold update, spawnStep.
    assert (Hq0 : queue m0 = []) by exact Hq.
    unfold queue in Hq0.
    destruct (enemiesToSpawn m0) as [[|ty rest]|] eqn:E; try discriminate;
      change (activeEnemies m0) with (@nil nat); simpl; rewrite Hc; reflexivity. }
  split; [reflexivity|]. split; [reflexivity|]. split; [exact Hc|].
  clearbody m0 world0.
  induction deltaTimes as [|deltaTime rest IH]; simpl; [reflexivity|].
  rewrite Hu, IH. reflexivity.
Qed.

Lemma cleanup_strands_the_wave_witness :
  let '(m, world, _) := spawned in
  (queue m = [] /\ (0 < enemiesRemaining m)%Z) /\
  let '(m0, world0) := waveCleanup m world in
  activeEnemies m0 = [] /\
  enemiesRemaining m0 = enemiesRemaining m /\
  isWaveComplete m0 = false /\
  updates [16; 16] m0 world0 = (m0, world0, replicate 2 []).
Proof.
  destruct spawned as [[m world] calls] eqn:E.
  assert (Hq : queue m = [])
    by (replace m with (fst (fst spawned)) by (rewrite E; reflexivity);
        vm_compute; reflexivity).
  assert (Hr : (0 < enemiesRemaining m)%Z)
    by (replace m with (fst (fst spawned)) by (rewrite E; reflexivity);
        vm_compute; reflexivity).
  split; [split; assumption|].
  exact (cleanup_strands_the_wave [16; 16] m world Hq Hr).
Defined.

End WaveFacts.

(** ** Cooldowns, the beam and projectiles *)

Module WeaponFacts.
Import JS JSFacts THREE Enemy HandTracker Weapons Upkeep.
Local Open Scope Q_scope.

Lemma firePrimary_success now shipPosition forward ship w :
  fst (fst (firePrimary now shipPosition forward ship w)) = true ->
  coolingDown now (currentWeapon w) w = false /\
  energyCost (currentWeapon w) <= Aurelian.energy ship /\
  firePrimary now shipPosition forward ship w =
  (true,
   Aurelian.set_energy (Aurelian.energy ship - energyCost (currentWeapon w)) ship,
   set_lastFired (currentWeapon w) now
     match currentWeapon w with
     | railgun => fireRailgun now shipPosition forward w
     | harpoon => fireHarpoon now shipPosition forward w
     | laser => w
     end).
Proof.
  unfold firePrimary. destruct (coolingDown _ _ _); [discriminate|].
  destruct (ltb _ _) eqn:He; [discriminate|]. apply ltb_ge in He.
  intros _. repeat split. exact He.
Qed.

Lemma fired_weapon_kept now shipPosition forward w :
  currentWeapon
    (set_lastFired (currentWeapon w) now
       match currentWeapon w with
       | railgun => fireRailgun now shipPosition forward w
       | harpoon => fireHarpoon now shipPosition forward w
       | laser => w
       end) = currentWeapon w.
Proof. destruct (currentWeapon w) eqn:E; simpl; rewrite ?E; reflexivity. Qed.

(** X8.  After a shot that succeeded at time [now], every [firePrimary]
    with the same weapon less than its cooldown later (200 ms for the
    railgun, 3000 ms for the harpoon) fails and changes nothing, whatever
    the energy; once the cooldown has passed, it succeeds as soon as the
    ship has the energy. *)
Theorem no_refire_within_cooldown now t shipPosition forward ship ship' w :
  fst (fst (firePrimary now shipPosition forward ship w)) = true ->
  let w1 := snd (firePrimary now shipPosition forward ship w) in
  currentWeapon w1 = currentWeapon w /\
  (t - now < cooldown (currentWeapon w) ->
   firePrimary t shipPosition forward ship' w1 = (false, ship', w1)) /\
  (cooldown (currentWeapon w) <= t - now ->
   energyCost (currentWeapon w) <= Aurelian.energy ship' ->
   fst (fst (firePrimary t shipPosition forward ship' w1)) = true).
Proof.
  intros Hok. destruct (firePrimary_success _ _ _ _ _ Hok) as (_ & _ & ->).
  cbn [snd].
  set (w1 := set_lastFired _ _ _).
  assert (Hw : currentWeapon w1 = currentWeapon w) by apply fired_weapon_kept.
  assert (Hl : lastFired w1 (currentWeapon w) = Some now).
  { unfold w1. simpl. destruct (decide _); [reflexivity | congruence]. }
  split; [exact Hw|]. split.
  - intros Ht. apply WeaponsSpec.firePrimary_refused. left.
    unfold coolingDown. rewrite Hw, Hl. apply ltb_lt. exact Ht.
  - intros Ht He. unfold firePrimary, coolingDown. rewrite Hw, Hl.
    apply ltb_ge in Ht. rewrite Ht. apply ltb_ge in He. rewrite He. reflexivity.
Qed.

Lemma no_refire_within_cooldown_witness :
  let ship := Aurelian.constructor in
  let w := constructor in
  fst (fst (firePrimary 1000 origin ahead ship w)) = true /\
  let w1 := snd (firePrimary 1000 origin ahead ship w) in
  currentWeapon w1 = currentWeapon w /\
  (1100 - 1000 < cooldown (currentWeapon w) ->
   firePrimary 1100 origin ahead ship w1 = (false, ship, w1)) /\
  (cooldown (currentWeapon w) <= 1100 - 1000 ->
   energyCost (currentWeapon w) <= Aurelian.energy ship ->
   fst (fst (firePrimary 1100 origin ahead ship w1)) = true).
Proof.
  assert (H : fst (fst (firePrimary 1000 origin ahead Aurelian.constructor
                          constructor)) = true) by reflexivity.
  split; [exact H|].
  exact (no_refire_within_cooldown 1000 1100 origin ahead Aurelian.constructor
           Aurelian.constructor constructor H).
Defined.

(** X9.  For a weapon that has been fired at or before [now], the cooldown
    progress shown by the HUD is a number between 0 and 1, and it is 1
    exactly when the cooldown check of [firePrimary] passes. *)
Theorem cooldown_progress_matches_fire_check now n w t :
  lastFired w n = Some t -> t <= now ->
  exists p,
    getCooldownProgress now n w = Some p /\
    0 <= p /\ p <= 1 /\
    (p == 1 <-> coolingDown now n w = false).
Proof.
  intros Hl Ht. unfold getCooldownProgress, coolingDown. rewrite Hl.
  destruct n; simpl.
  - change ((now - t) / 200) with ((now - t) * (1 # 200)).
    eexists. split; [reflexivity|].
    rewrite ltb_ge.
    destruct (Math_min_spec 1 ((now - t) * (1 # 200))) as [[? ->]|[? ->]];
      repeat split; intros; lra.
  - exists 1. split; [reflexivity|]. rewrite ltb_ge.
    repeat split; intros; lra.
  - change ((now - t) / 3000) with ((now - t) * (1 # 3000)).
    eexists. split; [reflexivity|].
    rewrite ltb_ge.
    destruct (Math_min_spec 1 ((now - t) * (1 # 3000))) as [[? ->]|[? ->]];
      repeat split; intros; lra.
Qed.

Lemma cooldown_progress_matches_fire_check_witness :
  let w := constructor in
  (lastFired w harpoon = Some 0 /\ 0 <= 1500) /\
  exists p,
    getCooldownProgress 1500 harpoon w = Some p /\
    0 <= p /\ p <= 1 /\
    (p == 1 <-> coolingDown 1500 harpoon w = false).
Proof.
  split; [split; [reflexivity | lra]|].
  apply (cooldown_progress_matches_fire_check 1500 harpoon constructor 0);
    [reflexivity | lra].
Defined.

Lemma toggleLaser_flags active ship w :
  laserActive w = activeBeam w ->
  laserActive (toggleLaser active ship w)
  = activeBeam (toggleLaser active ship w).
Proof.
  intros H. unfold toggleLaser.
  destruct (active && negb (laserActive w));
    [destruct (ltb _ _); [exact H | reflexivity]|].
  destruct (negb active && laserActive w); [reflexivity | exact H].
Qed.

Lemma step_beam_flags op st :
  laserActive (snd st) = activeBeam (snd st) ->
  laserActive (snd (Game.step op st)) = activeBeam (snd (Game.step op st)).
Proof.
  destruct st as [ship w]. intros H. destruct op; simpl in *; try exact H.
  - unfold firePrimary. destruct (coolingDown _ _ _); [exact H|].
    destruct (ltb _ _); [exact H|]. destruct (currentWeapon w); exact H.
  - unfold selectWeapon. destruct (decide _); simpl;
      [apply toggleLaser_flags|]; exact H.
  - apply toggleLaser_flags. exact H.
  - unfold updateBeam. destruct (negb _ || negb _); [exact H|].
    destruct (leb _ _); simpl; [apply toggleLaser_flags|]; exact H.
Qed.

Lemma call_beam_implies_flag c st :
  (activeBeam (snd st) = true -> laserActive (snd st) = true) ->
  activeBeam (snd (call st c)) = true -> laserActive (snd (call st c)) = true.
Proof.
  destruct st as [ship w]. destruct c as [op|]; [|discriminate].
  intros H. cbn [call].
  assert (T : forall active ship0,
            activeBeam (toggleLaser active ship0 w) = true ->
            laserActive (toggleLaser active ship0 w) = true).
  { intros active ship0. unfold toggleLaser.
    destruct (active && negb (laserActive w));
      [destruct (ltb _ _); [exact H | reflexivity]|].
    destruct (negb active && laserActive w); [discriminate | exact H]. }
  destruct op; simpl in *; try exact H.
  - unfold firePrimary. destruct (coolingDown _ _ _); [exact H|].
    destruct (ltb _ _); [exact H|]. destruct (currentWeapon w); exact H.
  - unfold selectWeapon. destruct (decide _); simpl; [apply T | exact H].
  - apply T.
  - unfold updateBeam. destruct (negb _ || negb _); [exact H|].
    destruct (leb _ _); simpl; [apply T | exact H].
Qed.

Lemma call_beam_flags c st :
  isCleanup c = false ->
  laserActive (snd st) = activeBeam (snd st) ->
  laserActive (snd (call st c)) = activeBeam (snd (call st c)).
Proof.
  destruct c as [op|]; [|discriminate]. intros _. apply step_beam_flags.
Qed.

(** X10.  Over any run of the operations of the game and of [cleanup] on a
    new ship and weapon system, the beam never exists without the flag of
    the laser: whenever there is a beam, [laser.active] is set.  As long as
    [cleanup] has not been called the two go together, the beam existing
    exactly while the flag is set. *)
Theorem beam_exists_only_while_laser_active cs :
  let w := snd (calls cs Game.start) in
  (activeBeam w = true -> laserActive w = true) /\
  (forallb (fun c => negb (isCleanup c)) cs = true ->
   laserActive w = activeBeam w).
Proof.
  cbv zeta. unfold calls.
  assert (G1 : forall st,
            (activeBeam (snd st) = true -> laserActive (snd st) = true) ->
            activeBeam (snd (fold_left call cs st)) = true ->
            laserActive (snd (fold_left call cs st)) = true).
  { induction cs as [|c cs IH]; intros st H; [exact H|].
    apply (IH (call st c)). apply call_beam_implies_flag. exact H. }
  assert (G2 : forall st,
            forallb (fun c => negb (isCleanup c)) cs = true ->
            laserActive (snd st) = activeBeam (snd st) ->
            laserActive (snd (fold_left call cs st))
            = activeBeam (snd (fold_left call cs st))).
  { clear G1. induction cs as [|c cs IH]; intros st Hall H; [exact H|].
    simpl in Hall. apply andb_true_iff in Hall as [Hc Hall].
    apply (IH (call st c) Hall). apply call_beam_flags; [|exact H].
    apply negb_true_iff. exact Hc. }
  split.
  - apply G1. intros H0. vm_compute in H0. discriminate H0.
  - intros Hall. apply G2; [exact Hall | reflexivity].
Qed.

(** X11.  [cleanup] removes slugs, harpoons and the beam but leaves
    [laser.active] as it was.  After a cleanup with the laser on, the beam is
    gone while the flag is still set: [toggleLaser(true)] does nothing, and
    [updateBeam] neither drains energy nor fires, until the laser is toggled
    off and on again. *)
Theorem cleanup_leaves_laser_flag ship w dt :
  laserActive w = true ->
  let w' := weaponsCleanup w in
  projectiles w' = [] /\ harpoons w' = [] /\
  activeBeam w' = false /\ laserActive w' = true /\
  toggleLaser true ship w' = w' /\
  updateBeam dt ship w' = (ship, w') /\
  (5 <= Aurelian.energy ship ->
   activeBeam (toggleLaser true ship (toggleLaser false ship w')) = true).
Proof.
  intros H. simpl. unfold weaponsCleanup, destroyBeam, toggleLaser, updateBeam.
  simpl. rewrite H. simpl.
  repeat split. intros He. apply ltb_ge in He. rewrite He. reflexivity.
Qed.

Lemma cleanup_leaves_laser_flag_witness :
  let ship := Aurelian.constructor in
  let w := toggleLaser true ship constructor in
  laserActive w = true /\
  let w' := weaponsCleanup w in
  projectiles w' = [] /\ harpoons w' = [] /\
  activeBeam w' = false /\ laserActive w' = true /\
  toggleLaser true ship w' = w' /\
  updateBeam 0.016 ship w' = (ship, w') /\
  (5 <= Aurelian.energy ship ->
   activeBeam (toggleLaser true ship (toggleLaser false ship w')) = true).
Proof.
  assert (H : laserActive (toggleLaser true Aurelian.constructor constructor)
              = true) by reflexivity.
  split; [exact H|].
  exact (cleanup_leaves_laser_flag Aurelian.constructor _ 0.016 H).
Defined.

Lemma damage_keeps_scene k amount world :
  dom (objects (Enemy.damage k amount world)) = dom (objects world) /\
  poses (Enemy.damage k amount world) = poses world /\
  scene (Enemy.damage k amount world) = scene world.
Proof.
  unfold Enemy.damage. simpl. split; [apply dom_alter_L|]. split; reflexivity.
Qed.

Lemma collides_same_poses p w1 w2 t :
  poses w1 = poses w2 -> collides p w1 t = collides p w2 t.
Proof. unfold collides. intros ->. reflexivity. Qed.

Lemma find_same {A} (f g : A -> bool) (l : list A) :
  (forall x, f x = g x) -> List.find f l = List.find g l.
Proof.
  intros H. induction l as [|x l IH]; [reflexivity|].
  simpl. rewrite H, IH. reflexivity.
Qed.

(** X12.  A slug that is still in flight after an update has not outlived
    its lifetime and touches no enemy at its new position; the update never
    adds slugs, and it adds or removes no enemy object and moves no mesh. *)
Theorem surviving_slugs dt now enemies ps world :
  let '(ps', world') := updateProjectiles dt now enemies ps world in
  (length ps' <= length ps)%nat /\
  Forall (fun p =>
            now - p_created p <= p_lifetime p /\
            List.find (collides (p_position p) world) enemies = None) ps' /\
  dom (objects world') = dom (objects world) /\
  poses world' = poses world /\
  scene world' = scene world.
Proof.
  induction ps as [|p rest IH]; simpl.
  - repeat split; [lia | constructor].
  - destruct (updateProjectiles dt now enemies rest world) as [rest1 world1].
    destruct IH as (Hlen & Hall & Hdom & Hposes & Hscene).
    unfold updateProjectile. simpl.
    destruct (ltb (p_lifetime p) (now - p_created p)) eqn:Hexp;
      [repeat split; [lia | assumption..]|].
    apply ltb_ge in Hexp.
    destruct (List.find _ enemies) as [t|] eqn:Hfind.
    + destruct (damage_keeps_scene (enemy t) (p_damage p) world1)
        as (D1 & D2 & D3).
      repeat split; [lia | assumption | congruence..].
    + repeat split; [simpl; lia | | assumption..].
      constructor; [|exact Hall]. simpl. split; [exact Hexp|].
      rewrite <- Hfind. apply find_same. intros t.
      apply collides_same_poses. symmetry. exact Hposes.
Qed.

(** X13.  An attached harpoon never detaches and never damages again: an
    update either removes it because its lifetime has run out, leaving the
    world as it was, or keeps it attached to the same target and writes no
    enemy object. *)
Theorem attached_harpoon_stays_attached
  normalize dt now enemies shipPosition h world :
  attached h = true ->
  match updateHarpoon normalize dt now enemies shipPosition h world with
  | (Some h', world') =>
      attached h' = true /\ attachedTo h' = attachedTo h /\
      objects world' = objects world /\ scene world' = scene world /\
      now - created h <= lifetime h
  | (None, world') => world' = world /\ lifetime h < now - created h
  end.
Proof.
  intros Ha. unfold updateHarpoon.
  destruct (ltb (lifetime h) (now - created h)) eqn:Hexp.
  - apply ltb_lt in Hexp. split; [reflexivity | exact Hexp].
  - apply ltb_ge in Hexp. rewrite Ha. simpl.
    destruct (attachedTo h) as [t|] eqn:Ht; [destruct (mesh t)|];
      cbn; repeat split; try assumption; try reflexivity.
Qed.

Lemma attached_harpoon_stays_attached_witness :
  let h := {| position := origin; velocity := ahead; h_damage := 10;
              lifetime := 5000; created := 0; attached := true;
              attachedTo := Some Scenario.deadTarget;
              originPosition := origin |} in
  attached h = true /\
  match updateHarpoon (fun v => v) 0.016 16 [] origin h WaveManager.emptyWorld
  with
  | (Some h', world') =>
      attached h' = true /\ attachedTo h' = attachedTo h /\
      objects world' = objects WaveManager.emptyWorld /\
      scene world' = scene WaveManager.emptyWorld /\
      16 - created h <= lifetime h
  | (None, world') =>
      world' = WaveManager.emptyWorld /\ lifetime h < 16 - created h
  end.
Proof.
  split; [reflexivity|].
  apply (attached_harpoon_stays_attached (fun v => v) 0.016 16 [] origin
           {| position := origin; velocity := ahead; h_damage := 10;
              lifetime := 5000; created := 0; attached := true;
              attachedTo := Some Scenario.deadTarget;
              originPosition := origin |} WaveManager.emptyWorld).
  reflexivity.
Defined.

Lemma firePrimary_keeps_weapon now shipPosition forward ship w :
  currentWeapon (snd (firePrimary now shipPosition forward ship w))
  = currentWeapon w.
Proof.
  unfold firePrimary. destruct (coolingDown _ _ _); [reflexivity|].
  destruct (ltb _ _); [reflexivity|]. apply fired_weapon_kept.
Qed.

Lemma firePrimary_harpoon_no_slug now shipPosition forward ship w :
  currentWeapon w = harpoon ->
  projectiles (snd (firePrimary now shipPosition forward ship w))
  = projectiles w.
Proof.
  intros Hw. unfold firePrimary. destruct (coolingDown _ _ _); [reflexivity|].
  destruct (ltb _ _); [reflexivity|]. rewrite Hw. reflexivity.
Qed.

(** X14.  In the game loop a FIRE_SECONDARY frame leaves the harpoon
    selected and the weapon block never selects the railgun: a FIRE_PRIMARY
    frame that follows keeps the harpoon selected, spawns no slug whatever
    the time and the energy, and when it plays the railgun sound it is a
    harpoon that was fired. *)
Theorem secondary_fire_keeps_harpoon_selected
  now shipPosition forward ship w t shipPosition' forward' ship' :
  let w1 := snd (fire now shipPosition forward FIRE_SECONDARY ship w) in
  let '(sound, _, w2) :=
    fire t shipPosition' forward' FIRE_PRIMARY ship' w1 in
  currentWeapon w1 = harpoon /\
  currentWeapon w2 = harpoon /\
  projectiles w2 = projectiles w1 /\
  (sound = Some RailgunSound ->
   length (harpoons w2) = S (length (harpoons w1))).
Proof.
  simpl.
  set (w0 := if decide (currentWeapon w <> harpoon)
             then selectWeapon harpoon ship w else w).
  assert (H0 : currentWeapon w0 = harpoon).
  { unfold w0. destruct (decide (currentWeapon w <> harpoon)) as [|Hn];
      [reflexivity|]. destruct (currentWeapon w); try reflexivity;
      exfalso; apply Hn; discriminate. }
  unfold fire.
  pose proof (firePrimary_keeps_weapon now shipPosition forward ship w0) as K1.
  destruct (firePrimary now shipPosition forward ship w0) as [[ok ship1] w1].
  simpl in K1. cbn [snd]. rewrite H0 in K1.
  pose proof (firePrimary_keeps_weapon t shipPosition' forward' ship' w1) as K2.
  pose proof (firePrimary_harpoon_no_slug t shipPosition' forward' ship' w1 K1)
    as K3.
  pose proof (WeaponsSpec.firePrimary_fires t shipPosition' forward' ship' w1)
    as K4.
  pose proof (firePrimary_success t shipPosition' forward' ship' w1) as K5.
  destruct (firePrimary t shipPosition' forward' ship' w1) as [[ok2 ship2] w2].
  simpl in *. rewrite K1 in *.
  split; [reflexivity|]. split; [exact K2|]. split; [exact K3|].
  destruct ok2; [|discriminate]. intros _.
  destruct (K5 eq_refl) as (C & E & _).
  destruct K4 as (_ & _ & _ & _ & K4); [discriminate | exact C | exact E|].
  apply K4. reflexivity.
Qed.

End WeaponFacts.

(** ** The ship over its whole history *)

Module ShipFacts.
Import JS JSFacts HandTracker Aurelian Upkeep.
Local Open Scope Q_scope.

(** Case analysis on every test of an operation on the ship. *)
Ltac ship_cases :=
  unfold apply, restart, update, processGesture, boost, barrelRoll,
    activateShield, animate, drainTick, shieldTimeout, clearInterval,
    deactivateShield, takeDamage;
  repeat match goal with
  | |- context [match ?g with IDLE => _ | _ => _ end] => destruct g
  | |- context [if ?c then _ else _] => destruct c eqn:?
  | |- context [match rollStart ?s with _ => _ end] =>
      destruct (rollStart s) eqn:?
  end;
  cbn [hull maxHull shield maxShield energy maxEnergy energyRegen
       isThrusting isBraking isBoosting isInvulnerable shieldActive
       rollStart drainIntervals shieldTimeouts nextTimer fst snd
       set_hull set_shield set_energy set_controls set_isInvulnerable
       set_rollStart set_shieldActive set_timers] in *.

Lemma history_app events1 events2 s :
  history (events1 ++ events2) s = history events2 (history events1 s).
Proof. apply fold_left_app. Qed.

(** An invariant of every operation holds after every history. *)
Lemma history_ind (P : Aurelian -> Prop) :
  (forall s e, P s -> P (apply s e)) ->
  forall events s, P s -> P (history events s).
Proof.
  intros Hstep events. induction events as [|e events IH]; intros s Hs;
    [exact Hs|]. apply IH, Hstep, Hs.
Qed.

Lemma takeDamage_flag amount s :
  isInvulnerable (fst (takeDamage amount s)) = isInvulnerable s.
Proof. ship_cases; congruence. Qed.

Lemma leb_Qeq a b c : a == b -> leb a c = leb b c.
Proof.
  intros E. destruct (leb b c) eqn:H.
  - apply leb_le. apply leb_le in H. lra.
  - apply leb_gt. apply leb_gt in H. lra.
Qed.

(** X15.  Damage adds up: on a ship that is not invulnerable, two hits in a
    row leave the shield, the hull and the death signal of one hit of the
    sum, and shield plus hull drops by exactly the damage taken. *)
Theorem damage_adds_up a b s :
  isInvulnerable s = false -> 0 <= shield s -> 0 <= a -> 0 <= b ->
  let s1 := fst (takeDamage a s) in
  let s2 := fst (takeDamage b s1) in
  let s' := fst (takeDamage (a + b) s) in
  shield s2 == shield s' /\ hull s2 == hull s' /\
  snd (takeDamage b s1) = snd (takeDamage (a + b) s) /\
  shield s2 + hull s2 == shield s + hull s - (a + b).
Proof.
  intros Hinv Hs Ha Hb s1 s2 s'.
  destruct (AurelianSpec.takeDamage_vulnerable s a Hinv Hs Ha)
    as (S1 & H1 & _).
  fold s1 in S1, H1.
  assert (Hinv1 : isInvulnerable s1 = false)
    by (unfold s1; rewrite takeDamage_flag; exact Hinv).
  assert (Hs1 : 0 <= shield s1).
  { rewrite S1. pose proof (Math_min_le_l (shield s) a). lra. }
  destruct (AurelianSpec.takeDamage_vulnerable s1 b Hinv1 Hs1 Hb)
    as (S2 & H2 & D2).
  fold s2 in S2, H2, D2.
  assert (Hab : 0 <= a + b) by lra.
  destruct (AurelianSpec.takeDamage_vulnerable s (a + b) Hinv Hs Hab)
    as (S' & H' & D').
  fold s' in S', H', D'.
  assert (E : shield s2 == shield s' /\ hull s2 == hull s').
  { destruct (Math_min_spec (shield s) a) as [[? M1]|[? M1]];
      rewrite M1 in S1, H1;
      destruct (Math_min_spec (shield s1) b) as [[? M2]|[? M2]];
      rewrite M2 in S2, H2;
      destruct (Math_min_spec (shield s) (a + b)) as [[? M3]|[? M3]];
      rewrite M3 in S', H'; split; lra. }
  destruct E as [E1 E2]. split; [exact E1|]. split; [exact E2|].
  split; [rewrite D2, D'; f_equal; apply leb_Qeq; exact E2|].
  destruct (Math_min_spec (shield s) (a + b)) as [[? M3]|[? M3]];
    rewrite M3 in S', H'; lra.
Qed.

Lemma damage_adds_up_witness :
  let s := constructor in
  (isInvulnerable s = false /\ 0 <= shield s /\ 0 <= 70 /\ 0 <= 60) /\
  let s1 := fst (takeDamage 70 s) in
  let s2 := fst (takeDamage 60 s1) in
  let s' := fst (takeDamage (70 + 60) s) in
  shield s2 == shield s' /\ hull s2 == hull s' /\
  snd (takeDamage 60 s1) = snd (takeDamage (70 + 60) s) /\
  shield s2 + hull s2 == shield s + hull s - (70 + 60).
Proof.
  split; [repeat split; try reflexivity; simpl; lra|].
  apply (damage_adds_up 70 60 constructor); try reflexivity; simpl; lra.
Defined.

Lemma apply_timers s e : timersConsistent s -> timersConsistent (apply s e).
Proof.
  unfold timersConsistent. intros (Hsub & Hfresh & Hlive).
  destruct e as [now deltaTime gesture|now|k|k|amount|]; ship_cases;
    rewrite ?bool_decide_eq_true in *;
    (split; [intros x Hx;
             rewrite ?elem_of_union, ?elem_of_difference in *;
             pose proof (Hsub x); tauto|]);
    (split; [intros j Hj;
             rewrite ?elem_of_union, ?elem_of_singleton,
               ?elem_of_difference in Hj;
             first [ specialize (Hfresh j Hj); lia
                   | destruct Hj as [Hj|Hj];
                     [subst; lia | specialize (Hfresh j Hj); lia]
                   | destruct Hj as [Hj _]; specialize (Hfresh j Hj); lia ]|]);
    try (intros; discriminate);
    try exact Hlive;
    try (intros _ Hempty;
         apply (non_empty_singleton_L (C:=gset nat) (nextTimer s));
         apply (anti_symm (⊆)); [|apply empty_subseteq];
         rewrite <- Hempty; apply union_subseteq_l).
Qed.

(** X16.  The timers of the shield stay consistent through every history of
    the ship, restarts of the game included: a live drain interval always has its timeout still pending (no
    drain runs for ever), no timer handle is handed out twice, and an active
    shield always has a live drain interval. *)
Theorem shield_timers_consistent events :
  timersConsistent (history events constructor).
Proof.
  apply (history_ind timersConsistent); [intros s e; apply apply_timers|].
  unfold timersConsistent. simpl. split; [set_solver|].
  split; [intros k Hk; set_solver | discriminate].
Qed.

Lemma apply_roll s e :
  (isInvulnerable s = true <-> is_Some (rollStart s)) ->
  (isInvulnerable (apply s e) = true <-> is_Some (rollStart (apply s e))).
Proof.
  destruct e as [now deltaTime gesture|now|k|k|amount|]; ship_cases;
    intros H; try exact H;
    try (match goal with E : rollStart _ = _ |- _ => rewrite E; exact H end);
    try (match goal with E : isInvulnerable _ = _ |- _ => rewrite E; exact H
         end);
    try (split; [discriminate | intros [? ?]; discriminate]);
    try (split; [intros _; eexists; reflexivity | reflexivity]).
Qed.

(** X17.  The ship is invulnerable exactly while a roll animation is
    pending, whatever its history, restarts of the game included; and the first animation frame 500 ms or
    more after the start of the roll ends the invulnerability. *)
Theorem invulnerable_only_while_rolling events :
  let s := history events constructor in
  (isInvulnerable s = true <-> is_Some (rollStart s)) /\
  (isInvulnerable s = true ->
   exists start, rollStart s = Some start /\
     forall now, 500 <= now - start ->
       isInvulnerable (animate now s) = false /\
       rollStart (animate now s) = None).
Proof.
  intros s.
  assert (H : isInvulnerable s = true <-> is_Some (rollStart s)).
  { apply (history_ind
             (fun s => isInvulnerable s = true <-> is_Some (rollStart s)));
      [intros s0 e; apply apply_roll|].
    simpl. split; [discriminate | intros [? ?]; discriminate]. }
  split; [exact H|]. intros Hi. apply H in Hi as [start Hstart].
  exists start. split; [exact Hstart|]. intros now Hnow.
  rewrite (AurelianSpec.animate_after now start s Hstart Hnow).
  split; reflexivity.
Qed.

Lemma apply_bounds s e :
  sane e -> 0 <= shield s <= maxShield s -> hull s <= maxHull s ->
  0 <= shield (apply s e) <= maxShield (apply s e) /\
  hull (apply s e) <= maxHull (apply s e) /\
  maxShield (apply s e) = maxShield s /\
  maxHull (apply s e) = maxHull s /\
  (isRestart e = false -> hull (apply s e) <= hull s).
Proof.
  intros He Hs Hh.
  destruct e as [now deltaTime gesture|now|k|k|amount|]; simpl in He;
    ship_cases;
    repeat match goal with
    | H : ltb _ _ = true |- _ => apply ltb_lt in H
    | H : ltb _ _ = false |- _ => apply ltb_ge in H
    | |- context [Math_min ?a ?b] =>
        destruct (Math_min_spec a b) as [[? ->]|[? ->]]
    end;
    repeat split; try reflexivity; try discriminate; try lra;
    intros _; lra.
Qed.

(** X18.  Through every history in which time runs forward and damage is
    not negative, restarts of the game included, the shield stays between 0
    and its maximum and the hull never exceeds its maximum.  Only a restart
    raises the hull: in a history without one the hull never increases. *)
Theorem shield_bounded_hull_raised_by_restart_only events s :
  Forall sane events -> 0 <= shield s <= maxShield s -> hull s <= maxHull s ->
  let s' := history events s in
  0 <= shield s' <= maxShield s' /\ hull s' <= maxHull s' /\
  maxShield s' = maxShield s /\ maxHull s' = maxHull s /\
  (forallb (fun e => negb (isRestart e)) events = true -> hull s' <= hull s).
Proof.
  intros Hall. revert s. induction Hall as [|e events He Hall IH];
    intros s Hs Hh; simpl.
  - split; [exact Hs|]. split; [exact Hh|]. split; [reflexivity|].
    split; [reflexivity|]. intros _. lra.
  - destruct (apply_bounds s e He Hs Hh) as (B & Hc & Hm & Hx & Hd).
    destruct (IH (apply s e) B Hc) as (B' & Hc' & Hm' & Hx' & Hd').
    split; [exact B'|]. split; [exact Hc'|]. split; [congruence|].
    split; [congruence|]. intros Hno.
    apply andb_true_iff in Hno as [Hn1 Hn2]. apply negb_true_iff in Hn1.
    specialize (Hd Hn1). specialize (Hd' Hn2). lra.
Qed.

Lemma shield_bounded_hull_raised_by_restart_only_witness :
  let events :=
    [Damage 130; Update 0 16 SHIELD; Drain 0; Restart; Damage 105] in
  let s := constructor in
  (Forall sane events /\ 0 <= shield s <= maxShield s /\
   hull s <= maxHull s) /\
  let s' := history events s in
  0 <= shield s' <= maxShield s' /\ hull s' <= maxHull s' /\
  maxShield s' = maxShield s /\ maxHull s' = maxHull s /\
  (forallb (fun e => negb (isRestart e)) events = true -> hull s' <= hull s).
Proof.
  intros events s.
  assert (H1 : Forall sane events) by (repeat constructor; simpl; lra).
  assert (H2 : 0 <= shield s <= maxShield s) by (simpl; lra).
  assert (H3 : hull s <= maxHull s) by (simpl; lra).
  split; [split; [exact H1 | split; [exact H2 | exact H3]]|].
  apply (shield_bounded_hull_raised_by_restart_only events s H1 H2 H3).
Defined.

(** X19.  The timeout of an earlier shield activation switches off a later
    one: when the timeout of activation [k] fires while the drain interval
    of another activation [j] is live, the shield goes down, the interval of
    [j] stays live, and its next tick still takes 5 energy. *)
Theorem stale_timeout_cuts_next_shield k j s :
  k ∈ shieldTimeouts s -> j ∈ drainIntervals s -> j <> k ->
  let s' := shieldTimeout k s in
  shieldActive s' = false /\
  j ∈ drainIntervals s' /\
  energy (drainTick j s') = energy s - 5.
Proof.
  intros Hk Hj Hjk. simpl.
  assert (E : shieldTimeout k s =
              clearInterval k (deactivateShield
                (set_timers (drainIntervals s) (shieldTimeouts s ∖ {[k]})
                   (nextTimer s) s))).
  { unfold shieldTimeout. rewrite bool_decide_eq_true_2 by exact Hk.
    reflexivity. }
  rewrite E. split; [reflexivity|].
  assert (Hj' : j ∈ drainIntervals s ∖ {[k]}) by set_solver.
  split; [exact Hj'|].
  unfold drainTick.
  cbn [drainIntervals clearInterval deactivateShield set_timers
       set_shieldActive].
  rewrite bool_decide_eq_true_2 by exact Hj'.
  cbv zeta. destruct (leb _ 0); reflexivity.
Qed.

Lemma stale_timeout_cuts_next_shield_witness :
  let s := history
             [Update 0 0 SHIELD; Drain 0; Drain 0; Drain 0; Drain 0;
              Drain 0; Drain 0; Update 1600 1000 IDLE; Update 1600 0 SHIELD]
             (set_energy 30 constructor) in
  (shieldActive s = true /\
   0%nat ∈ shieldTimeouts s /\ 1%nat ∈ drainIntervals s /\ 1%nat <> 0%nat) /\
  let s' := shieldTimeout 0 s in
  shieldActive s' = false /\
  1%nat ∈ drainIntervals s' /\
  energy (drainTick 1 s') = energy s - 5.
Proof.
  assert (H0 : 0%nat ∈ shieldTimeouts
                 (history
                    [Update 0 0 SHIELD; Drain 0; Drain 0; Drain 0; Drain 0;
                     Drain 0; Drain 0; Update 1600 1000 IDLE;
                     Update 1600 0 SHIELD]
                    (set_energy 30 constructor)))
    by (apply (bool_decide_unpack _); vm_compute; exact I).
  assert (H1 : 1%nat ∈ drainIntervals
                 (history
                    [Update 0 0 SHIELD; Drain 0; Drain 0; Drain 0; Drain 0;
                     Drain 0; Drain 0; Update 1600 1000 IDLE;
                     Update 1600 0 SHIELD]
                    (set_energy 30 constructor)))
    by (apply (bool_decide_unpack _); vm_compute; exact I).
  split; [split; [vm_compute; reflexivity|];
          split; [exact H0|]; split; [exact H1 | lia]|].
  apply (stale_timeout_cuts_next_shield 0 1 _ H0 H1). lia.
Defined.

End ShipFacts.

(** ** Score and combo *)

Module HudFacts.
Import JS JSFacts HUD.

Lemma play_app events1 events2 h :
  play (events1 ++ events2) h = play events2 (play events1 h).
Proof. apply fold_left_app. Qed.



Lemma handle_combo h e :
  (1 <= combo h <= maxCombo h)%Z ->
  (1 <= combo (handle h e) <= maxCombo (handle h e))%Z /\
  (maxCombo h <= maxCombo (handle h e))%Z.
Proof.
  intros H. destruct e as [ty|wave|deltaTime|]; cbn [handle];
    unfold onEnemyKilled, onWaveComplete, update, updateCombo, incrementCombo,
      addScore, reset;
    repeat match goal with
    | |- context [if ?c then _ else _] => destruct c
    end; cbn [combo maxCombo]; lia.
Qed.

(** X21.  Through every sequence of kills, completed waves, frames and
    resets the combo stays between 1 and the best combo, and the best combo
    never goes down: a reset of the HUD does not clear it. *)
Theorem combo_bounds events1 events2 :
  let h1 := play events1 constructor in
  let h2 := play events2 h1 in
  (1 <= combo h2 <= maxCombo h2)%Z /\ (maxCombo h1 <= maxCombo h2)%Z.
Proof.
  assert (G : forall events h, (1 <= combo h <= maxCombo h)%Z ->
            (1 <= combo (play events h) <= maxCombo (play events h))%Z /\
            (maxCombo h <= maxCombo (play events h))%Z).
  { induction events as [|e events IH]; intros h H; simpl; [lia|].
    destruct (handle_combo h e H) as [H1 H2].
    destruct (IH (handle h e) H1) as [H3 H4]. split; [exact H3 | lia]. }
  simpl. apply G. apply G. simpl. lia.
Qed.

Local Open Scope Q_scope.

Lemma total_nonneg dts : Forall (fun d => 0 <= d) dts -> 0 <= total dts.
Proof.
  induction 1 as [|d dts Hd _ IH]; simpl; [lra|].
  change (total (d :: dts)) with (d + total dts). lra.
Qed.

Lemma frames_expired dts h : comboTimer h <= 0 -> frames dts h = h.
Proof.
  intros H. induction dts as [|d dts IH]; [reflexivity|].
  change (frames (d :: dts) h) with (frames dts (update d h)).
  assert (E : update d h = h).
  { unfold update, updateCombo.
    assert (L : ltb 0 (comboTimer h) = false) by (apply ltb_ge; exact H).
    rewrite L. reflexivity. }
  rewrite E. exact IH.
Qed.

Lemma frames_window dts h :
  Forall (fun d => 0 <= d) dts -> 0 < comboTimer h ->
  score (frames dts h) = score h /\
  (total dts < comboTimer h -> combo (frames dts h) = combo h) /\
  (comboTimer h <= total dts -> combo (frames dts h) = 1%Z).
Proof.
  intros Hall. revert h. induction Hall as [|d dts Hd Hall IH]; intros h Ht.
  - split; [reflexivity|]. split; [reflexivity|].
    change (total []) with 0. lra.
  - change (frames (d :: dts) h) with (frames dts (update d h)).
    change (total (d :: dts)) with (d + total dts).
    pose proof (total_nonneg dts Hall) as Hn.
    unfold update, updateCombo.
    assert (L : ltb 0 (comboTimer h) = true) by (apply ltb_lt; exact Ht).
    rewrite L. cbv zeta.
    destruct (leb (comboTimer h - d) 0) eqn:Hexp.
    + apply leb_le in Hexp. rewrite frames_expired by exact Hexp.
      cbn [score combo]. split; [reflexivity|].
      split; [lra | reflexivity].
    + apply leb_gt in Hexp.
      match goal with |- context [frames dts ?h1] =>
        destruct (IH h1 Hexp) as (S1 & C1 & C2) end.
      cbn [score combo comboTimer] in S1, C1, C2.
      split; [exact S1|]. split; intros; [apply C1 | apply C2]; lra.
Qed.

(** X22.  After points are scored the combo lasts 3000 ms of frame time:
    while the frames since then add up to less than 3000 ms the combo is
    kept, once they add up to 3000 ms or more it is back at 1; the score is
    written by neither. *)
Theorem combo_window points dts h :
  Forall (fun d => 0 <= d) dts ->
  let h' := frames dts (addScore points h) in
  score h' = (score h + points * combo h)%Z /\
  (total dts < 3000 -> combo h' = combo h) /\
  (3000 <= total dts -> combo h' = 1%Z).
Proof.
  intros Hall.
  assert (Ht : 0 < comboTimer (addScore points h)) by (simpl; lra).
  destruct (frames_window dts (addScore points h) Hall Ht) as (S & C1 & C2).
  exact (conj S (conj C1 C2)).
Qed.

Lemma combo_window_witness :
  let dts := [1000; 1000; 999; 16] in
  let h := onEnemyKilled Enemy.HUNTER constructor in
  Forall (fun d => 0 <= d) dts /\
  let h' := frames dts (addScore 200 h) in
  score h' = (score h + 200 * combo h)%Z /\
  (total dts < 3000 -> combo h' = combo h) /\
  (3000 <= total dts -> combo h' = 1%Z).
Proof.
  assert (H : Forall (fun d => 0 <= d) [1000; 1000; 999; 16])
    by (repeat constructor; lra).
  split; [exact H|].
  apply (combo_window 200 [1000; 1000; 999; 16]
           (onEnemyKilled Enemy.HUNTER constructor) H).
Defined.

End HudFacts.

(** ** Enemy attacks *)

Module EnemyFacts.
Import JS JSFacts Enemy EnemyAI.
Local Open Scope Q_scope.

Ltac cmp_cases :=
  repeat match goal with
  | |- context [ltb ?a ?b] =>
      let H := fresh "Hcmp" in
      destruct (ltb a b) eqn:H;
      [apply ltb_lt in H | apply ltb_ge in H]
  end.

(** X23.  An update of an enemy measures the distance to the target before
    it moves, [canAttack] measures it again after the move.  After the
    update the enemy can attack exactly when its cooldown has passed, the
    distance after the move is within its attack range, and the distance
    before the move put it in its attack band: a vanguard below 100 units or
    under 10% health, a hunter from 150 to below 300 units with at least 30%
    health, a coward from 200 to below 400 units with at least 50%
    health. *)
Theorem attack_envelope deltaTime now measured distance a :
  let ty := type (body a) in
  canAttack now distance (update deltaTime measured a) = true <->
  attackCooldown ty <= now - lastAttack a /\
  distance <= attackRange ty /\
  inBand ty measured (healthPercent a).
Proof.
  unfold update, updateAI, canAttack, healthPercent, inBand.
  cbn [hasTarget body lastAttack state negb].
  generalize (health (body a) / maxHealth (body a)). intros hp.
  destruct (type (body a));
    unfold updateVanguardAI, updateHunterAI, updateCowardAI;
    cbn [attackRange attackCooldown retreatThreshold];
    cmp_cases; cbn [attackState];
    (split; [intros E; try discriminate E; repeat split; try lra;
             try (left; lra); try (right; lra)
            | intros (H1 & H2 & H3); try reflexivity; try lra;
              try (destruct H3; lra)]).
Qed.

Lemma updates_keep frames a :
  body (updates frames a) = body a /\
  lastAttack (updates frames a) = lastAttack a.
Proof.
  revert a. induction frames as [|f frames IH]; intros a; [split; reflexivity|].
  unfold updates. simpl. fold (updates frames (update (fst f) (snd f) a)).
  destruct (IH (update (fst f) (snd f) a)) as [B L]. rewrite B, L.
  unfold update, updateAI. cbn [hasTarget body lastAttack].
  split; reflexivity.
Qed.

(** X24.  An enemy attacks at most once per cooldown: after an attack at
    time [now] that produced a shot, every attempt earlier than the
    cooldown of its type later produces none and leaves the enemy as it is,
    whatever AI updates ran in between; the shot carries the damage of the
    type. *)
Theorem attack_cadence now distance a a1 shot frames t distance' :
  attack now distance a = (a1, Some shot) ->
  t - now < attackCooldown (type (body a)) ->
  let a2 := updates frames a1 in
  attack t distance' a2 = (a2, None) /\
  damage shot = attackDamage (type (body a)).
Proof.
  intros Hatk Ht a2. unfold attack in Hatk.
  destruct (canAttack now distance a); simpl in Hatk; [|discriminate].
  injection Hatk as Ha1 Hshot. subst a1 shot.
  split; [|reflexivity].
  destruct (updates_keep frames
              {| body := body a; state := state a; hasTarget := hasTarget a;
                 stateTimer := stateTimer a; lastAttack := now |}) as [B L].
  fold a2 in B, L. cbn [body lastAttack] in B, L.
  unfold attack, canAttack. rewrite B, L.
  assert (C : ltb (t - now) (attackCooldown (type (body a))) = true)
    by (apply ltb_lt; exact Ht).
  rewrite C. destruct (hasTarget a2); reflexivity.
Qed.

Lemma attack_cadence_witness :
  let a := update 16 250 (create HUNTER) in
  let a1 := fst (attack 5000 250 a) in
  let shot := {| damage := 15; attacker := HUNTER |} in
  (attack 5000 250 a = (a1, Some shot) /\
   5999 - 5000 < attackCooldown (type (body a))) /\
  let a2 := updates [(16, 240); (16, 230)] a1 in
  attack 5999 230 a2 = (a2, None) /\
  damage shot = attackDamage (type (body a)).
Proof.
  assert (H1 : attack 5000 250 (update 16 250 (create HUNTER))
               = (fst (attack 5000 250 (update 16 250 (create HUNTER))),
                  Some {| damage := 15; attacker := HUNTER |}))
    by (vm_compute; reflexivity).
  assert (H2 : 5999 - 5000
               < attackCooldown (type (body (update 16 250 (create HUNTER)))))
    by (vm_compute; reflexivity).
  split; [split; [exact H1 | exact H2]|].
  apply (attack_cadence 5000 250 (update 16 250 (create HUNTER)) _ _
           [(16, 240); (16, 230)] 5999 230 H1 H2).
Defined.

End EnemyFacts.

(** ** Enemy projectiles *)

Module EnemyFireFacts.
Import JS JSFacts THREE EnemyFire.
Local Open Scope Q_scope.

Lemma takeDamage_sum amount s :
  Aurelian.isInvulnerable s = false -> 0 <= Aurelian.shield s ->
  0 <= amount ->
  let s' := fst (Aurelian.takeDamage amount s) in
  Aurelian.isInvulnerable s' = false /\ 0 <= Aurelian.shield s' /\
  Aurelian.shield s' + Aurelian.hull s'
  == Aurelian.shield s + Aurelian.hull s - amount.
Proof.
  intros Hi Hs Ha s'.
  destruct (AurelianSpec.takeDamage_vulnerable s amount Hi Hs Ha)
    as (S1 & H1 & _). fold s' in S1, H1.
  split; [unfold s'; rewrite ShipFacts.takeDamage_flag; exact Hi|].
  destruct (Math_min_spec (Aurelian.shield s) amount) as [[? M]|[? M]];
    rewrite M in S1, H1; split; lra.
Qed.

(** X25.  One update of the enemy projectiles takes from a ship that is not
    invulnerable exactly the damage of the projectiles that, after their
    move, are within 40 units of it and have not outlived their lifetime:
    shield plus hull drops by their sum, and the shield stays at or above
    0. *)
Theorem volley_damage now deltaTime playerPosition ps player :
  Aurelian.isInvulnerable player = false ->
  0 <= Aurelian.shield player ->
  Forall (fun p => 0 <= damage p) ps ->
  let player' :=
    snd (updateProjectiles now deltaTime playerPosition ps player) in
  Aurelian.isInvulnerable player' = false /\
  0 <= Aurelian.shield player' /\
  Aurelian.shield player' + Aurelian.hull player'
  == Aurelian.shield player + Aurelian.hull player
     - incoming (deltaTime * 0.001) now playerPosition ps.
Proof.
  intros Hi Hs Hall. unfold updateProjectiles.
  generalize (deltaTime * 0.001). intros dt. cbv zeta.
  induction Hall as [|p ps Hp Hall IH].
  - simpl. split; [exact Hi|]. split; [exact Hs|]. lra.
  - cbn [updateProjectilesFrom incoming].
    destruct (updateProjectilesFrom dt now playerPosition ps player)
      as [rest1 player1].
    cbn [snd] in IH. destruct IH as (Hi1 & Hs1 & Hsum).
    unfold updateProjectile. cbv zeta. cbn [lifetime created position damage].
    destruct (ltb (lifetime p) (now - created p)); cbn [negb andb snd].
    + split; [exact Hi1|]. split; [exact Hs1|]. lra.
    + destruct (distanceTo_lt _ playerPosition 40); cbn [snd].
      * destruct (takeDamage_sum (damage p) player1 Hi1 Hs1 Hp)
          as (A & B & C).
        split; [exact A|]. split; [exact B|]. lra.
      * split; [exact Hi1|]. split; [exact Hs1|]. lra.
Qed.

Lemma volley_damage_witness :
  let shot := {| position := {| vx := 0; vy := 0; vz := -45 |};
                 velocity := {| vx := 0; vy := 0; vz := 600 |};
                 damage := 15; created := 0; lifetime := 5000 |} in
  let far := {| position := {| vx := 0; vy := 0; vz := -900 |};
                velocity := {| vx := 0; vy := 0; vz := 600 |};
                damage := 20; created := 0; lifetime := 5000 |} in
  let player := Aurelian.constructor in
  (Aurelian.isInvulnerable player = false /\
   0 <= Aurelian.shield player /\
   Forall (fun p => 0 <= damage p) [shot; far; shot]) /\
  let player' :=
    snd (updateProjectiles 16 16 origin [shot; far; shot] player) in
  Aurelian.isInvulnerable player' = false /\
  0 <= Aurelian.shield player' /\
  Aurelian.shield player' + Aurelian.hull player'
  == Aurelian.shield player + Aurelian.hull player
     - incoming (16 * 0.001) 16 origin [shot; far; shot].
Proof.
  intros shot far player.
  assert (H : Forall (fun p => 0 <= damage p) [shot; far; shot])
    by (repeat constructor; simpl; lra).
  assert (Hs : 0 <= Aurelian.shield player) by (simpl; lra).
  split; [split; [reflexivity|]; split; [exact Hs | exact H]|].
  apply (volley_damage 16 16 origin [shot; far; shot] player eq_refl Hs H).
Defined.

(** X26.  An invulnerable ship still uses up the projectiles that reach
    it: the update leaves the ship as it was, and the projectiles that stay
    in flight are all at least 40 units away and within their lifetime. *)
Theorem roll_absorbs_volley now deltaTime playerPosition ps player :
  Aurelian.isInvulnerable player = true ->
  let '(ps', player') :=
    updateProjectiles now deltaTime playerPosition ps player in
  player' = player /\
  (length ps' <= length ps)%nat /\
  Forall (fun p => distanceTo_lt (position p) playerPosition 40 = false /\
                   now - created p <= lifetime p) ps'.
Proof.
  intros Hi. unfold updateProjectiles.
  generalize (deltaTime * 0.001). intros dt.
  induction ps as [|p ps IH].
  - simpl. split; [reflexivity|]. split; [lia | constructor].
  - cbn [updateProjectilesFrom].
    destruct (updateProjectilesFrom dt now playerPosition ps player)
      as [rest1 player1].
    destruct IH as (E & Hlen & Hall). subst player1.
    unfold updateProjectile. cbv zeta. cbn [lifetime created position damage].
    destruct (ltb (lifetime p) (now - created p)) eqn:Hexp.
    + split; [reflexivity|]. split; [simpl; lia | exact Hall].
    + apply ltb_ge in Hexp.
      destruct (distanceTo_lt _ playerPosition 40) eqn:Hd.
      * rewrite AurelianSpec.takeDamage_invulnerable by exact Hi.
        split; [reflexivity|]. split; [simpl; lia | exact Hall].
      * split; [reflexivity|]. split; [simpl; lia|].
        constructor; [|exact Hall]. split; [exact Hd | exact Hexp].
Qed.

Lemma roll_absorbs_volley_witness :
  let shot := {| position := {| vx := 0; vy := 0; vz := -45 |};
                 velocity := {| vx := 0; vy := 0; vz := 600 |};
                 damage := 15; created := 0; lifetime := 5000 |} in
  let player := Aurelian.barrelRoll 0 Aurelian.constructor in
  Aurelian.isInvulnerable player = true /\
  let '(ps', player') := updateProjectiles 16 16 origin [shot] player in
  player' = player /\
  (length ps' <= length [shot])%nat /\
  Forall (fun p => distanceTo_lt (position p) origin 40 = false /\
                   16 - created p <= lifetime p) ps'.
Proof.
  intros shot player.
  assert (H : Aurelian.isInvulnerable player = true)
    by (vm_compute; reflexivity).
  split; [exact H|].
  apply (roll_absorbs_volley 16 16 origin [shot] player H).
Defined.

End EnemyFireFacts.

(** ** Hand analysis and gesture priority *)

Module HandFacts.
Import JS JSFacts HandTracker HandAnalysis.
Local Open Scope Q_scope.

(** X27.  The poses read off a hand exclude one another: no landmarks make
    a hand a fist and an open palm, a fist and pointing, or an open palm and
    pointing at once. *)
Theorem poses_exclusive landmarks :
  let h := analyzeHand landmarks in
  isFist h && isOpenPalm h = false /\
  isFist h && isPointing h = false /\
  isOpenPalm h && isPointing h = false.
Proof.
  unfold analyzeHand. cbv zeta. cbn [isFist isOpenPalm isPointing].
  destruct (isFingerExtended (landmarks 5%nat) _ _),
    (isFingerExtended (landmarks 9%nat) _ _),
    (isFingerExtended (landmarks 13%nat) _ _),
    (isFingerExtended (landmarks 17%nat) _ _),
    (ltb (lx (landmarks 4%nat)) (lx (landmarks 2%nat)));
    repeat split; reflexivity.
Qed.

Lemma ltb_iff a b a' b' : (a < b <-> a' < b') -> ltb a b = ltb a' b'.
Proof.
  intros H. destruct (ltb a' b') eqn:E.
  - apply ltb_lt. apply H. apply ltb_lt. exact E.
  - destruct (ltb a b) eqn:E'; [|reflexivity].
    apply ltb_lt in E'. apply H in E'. apply ltb_lt in E'. congruence.
Qed.

Lemma distance2DSquared_transform k d a b :
  distance2DSquared (transform k d a) (transform k d b)
  == k * k * distance2DSquared a b.
Proof. unfold distance2DSquared, transform. simpl. ring. Qed.

Lemma distance3DSquared_transform k d a b :
  distance3DSquared (transform k d a) (transform k d b)
  == k * k * distance3DSquared a b.
Proof. unfold distance3DSquared, transform. simpl. ring. Qed.

Lemma square_pos k : 0 < k -> 0 < k * k.
Proof. intros H. apply Qmult_lt_0_compat; exact H. Qed.

Lemma isFingerExtended_transform k d mcp pip tip :
  0 < k ->
  isFingerExtended (transform k d mcp) (transform k d pip) (transform k d tip)
  = isFingerExtended mcp pip tip.
Proof.
  intros Hk. unfold isFingerExtended. apply ltb_iff.
  rewrite !distance2DSquared_transform.
  pose proof (square_pos k Hk) as H2.
  rewrite <- (Qmult_lt_l (distance2DSquared mcp pip * (1.2 * 1.2))
                (distance2DSquared mcp tip) (k * k) H2).
  assert (E : k * k * distance2DSquared mcp pip * (1.2 * 1.2)
              == k * k * (distance2DSquared mcp pip * (1.2 * 1.2))) by ring.
  rewrite E. reflexivity.
Qed.

Lemma pinching_transform k d a b c e :
  0 < k ->
  pinching (transform k d a) (transform k d b) (transform k d c)
    (transform k d e)
  = pinching a b c e.
Proof.
  intros Hk. unfold pinching. apply ltb_iff.
  rewrite !distance3DSquared_transform.
  pose proof (square_pos k Hk) as H2.
  rewrite <- (Qmult_lt_l (distance3DSquared a b)
                (pinchThreshold * pinchThreshold * distance3DSquared c e)
                (k * k) H2).
  assert (E : pinchThreshold * pinchThreshold * (k * k * distance3DSquared c e)
              == k * k * (pinchThreshold * pinchThreshold
                          * distance3DSquared c e)) by ring.
  rewrite E. reflexivity.
Qed.

Lemma thumb_transform k d a b :
  0 < k ->
  ltb (lx (transform k d a)) (lx (transform k d b)) = ltb (lx a) (lx b).
Proof.
  intros Hk. apply ltb_iff. simpl.
  rewrite <- (Qmult_lt_l (lx a) (lx b) k Hk). split; intros; lra.
Qed.

(** X28.  What is read off a hand does not depend on where the hand is in
    the picture or how large it appears: moving all landmarks by [d] and
    scaling them by [k > 0] leaves pinch, fist, open palm and pointing as
    they were, and moves the palm centre along. *)
Theorem analysis_scale_invariant k d landmarks :
  0 < k ->
  let h := analyzeHand landmarks in
  let h' := analyzeHand (fun i => transform k d (landmarks i)) in
  isPinching h' = isPinching h /\
  isFist h' = isFist h /\
  isOpenPalm h' = isOpenPalm h /\
  isPointing h' = isPointing h /\
  x (palmCenter h') == k * x (palmCenter h) + lx d /\
  y (palmCenter h') == k * y (palmCenter h) + ly d.
Proof.
  intros Hk. unfold analyzeHand. cbv zeta.
  cbn [isPinching isFist isOpenPalm isPointing palmCenter x y].
  rewrite !(isFingerExtended_transform k d) by exact Hk.
  rewrite (pinching_transform k d) by exact Hk.
  rewrite (thumb_transform k d) by exact Hk.
  repeat (split; [reflexivity|]).
  unfold transform. cbn [lx ly]. split; field.
Qed.

Lemma analysis_scale_invariant_witness :
  let landmarks := fun i : nat =>
    {| lx := inject_Z (Z.of_nat i) / 20;
       ly := inject_Z (Z.of_nat (i mod 4)) / 10; lz := 0 |} in
  let d := {| lx := 0.25; ly := 0.125; lz := 0 |} in
  0 < 0.5 /\
  let h := analyzeHand landmarks in
  let h' := analyzeHand (fun i => transform 0.5 d (landmarks i)) in
  isPinching h' = isPinching h /\
  isFist h' = isFist h /\
  isOpenPalm h' = isOpenPalm h /\
  isPointing h' = isPointing h /\
  x (palmCenter h') == 0.5 * x (palmCenter h) + lx d /\
  y (palmCenter h') == 0.5 * y (palmCenter h) + ly d.
Proof.
  intros landmarks d.
  assert (H : 0 < 0.5) by lra.
  split; [exact H|].
  apply (analysis_scale_invariant 0.5 d landmarks H).
Defined.

(** X29.  With both hands held open the distance between the palm centres
    decides: more than 0.4 apart is BARREL_ROLL and less than 0.3 is BOOST,
    a pinch notwithstanding; from 0.3 to 0.4 neither applies and the right
    hand alone decides, FIRE_PRIMARY when it pinches and THRUST
    otherwise. *)
Theorem open_palms_dead_band lh rh t :
  isOpenPalm lh = true -> isOpenPalm rh = true -> isFist rh = false ->
  let handDistance := Qabs (x (palmCenter lh) - x (palmCenter rh)) in
  let g :=
    currentGesture (fst (detectGesture (setHands (Some lh) (Some rh) t))) in
  (0.4 < handDistance -> g = BARREL_ROLL) /\
  (handDistance < 0.3 -> g = BOOST) /\
  (0.3 <= handDistance <= 0.4 ->
   g = if isPinching rh then FIRE_PRIMARY else THRUST).
Proof.
  intros Hl Hr Hf. cbv zeta.
  unfold detectGesture, twoHandGesture, rightHandGesture.
  cbn [leftHand rightHand setHands]. rewrite Hl, Hr, Hf.
  generalize (Qabs (x (palmCenter lh) - x (palmCenter rh))). intros hd.
  destruct (ltb 0.4 hd) eqn:H1; [apply ltb_lt in H1 | apply ltb_ge in H1];
    (destruct (ltb hd 0.3) eqn:H2;
      [apply ltb_lt in H2 | apply ltb_ge in H2]);
    cbn [andb];
    try (destruct (ltb hd 0.2 && isFist lh && false) eqn:H3;
         [rewrite andb_false_r in H3; discriminate|]);
    (split; [intros; try reflexivity; lra|]);
    (split; [intros; try reflexivity; lra|]);
    intros; try lra; destruct (isPinching rh); reflexivity.
Qed.

Lemma open_palms_dead_band_witness :
  let lh := {| palmCenter := {| x := 0.3; y := 0.5 |}; isPinching := false;
               isFist := false; isOpenPalm := true; isPointing := false;
               indexTip := {| x := 0.3; y := 0.3 |} |} in
  let rh := {| palmCenter := {| x := 0.65; y := 0.5 |}; isPinching := false;
               isFist := false; isOpenPalm := true; isPointing := false;
               indexTip := {| x := 0.65; y := 0.3 |} |} in
  (isOpenPalm lh = true /\ isOpenPalm rh = true /\ isFist rh = false) /\
  let handDistance := Qabs (x (palmCenter lh) - x (palmCenter rh)) in
  let g :=
    currentGesture
      (fst (detectGesture (setHands (Some lh) (Some rh) constructor))) in
  (0.4 < handDistance -> g = BARREL_ROLL) /\
  (handDistance < 0.3 -> g = BOOST) /\
  (0.3 <= handDistance <= 0.4 ->
   g = if isPinching rh then FIRE_PRIMARY else THRUST).
Proof.
  intros lh rh.
  split; [repeat split; reflexivity|].
  apply (open_palms_dead_band lh rh constructor); reflexivity.
Defined.

(** X30.  A single pinching hand in view: when the detector labels it
    'Left' it is taken for the right hand and the frame's gesture is
    FIRE_PRIMARY, when it labels it 'Right' it is taken for the left hand
    and the gesture is FIRE_SECONDARY. *)
Theorem one_hand_pinch landmarks label t :
  pinching (landmarks 4%nat) (landmarks 8%nat) (landmarks 0%nat)
    (landmarks 9%nat) = true ->
  currentGesture (fst (processLandmarks [(landmarks, label)] t)) =
  match label with
  | Left => FIRE_PRIMARY
  | Right => FIRE_SECONDARY
  end.
Proof.
  intros Hp. unfold processLandmarks, assignHands, processResults.
  assert (E : isPinching (analyzeHand landmarks) = true) by exact Hp.
  destruct label; cbn [fold_left fst snd];
    unfold detectGesture, twoHandGesture, rightHandGesture, leftHandGesture;
    cbn [leftHand rightHand setHands]; rewrite E; reflexivity.
Qed.

Lemma one_hand_pinch_witness :
  let landmarks := fun i : nat =>
    match i with
    | 9%nat => {| lx := 0.5; ly := 0.3; lz := 0 |}
    | _ => {| lx := 0.5; ly := 0.5; lz := 0 |}
    end in
  pinching (landmarks 4%nat) (landmarks 8%nat) (landmarks 0%nat)
    (landmarks 9%nat) = true /\
  currentGesture (fst (processLandmarks [(landmarks, Right)] constructor)) =
  FIRE_SECONDARY.
Proof.
  intros landmarks.
  assert (H : pinching (landmarks 4%nat) (landmarks 8%nat) (landmarks 0%nat)
                (landmarks 9%nat) = true) by (vm_compute; reflexivity).
  split; [exact H|].
  apply (one_hand_pinch landmarks Right constructor H).
Defined.

End HandFacts.
